(** * interval-pool: a shallow embedding of [IntervalPool] and [IntervalBucket]

    Embedded sources: [src/index.ts] (the pool, [IntervalPool]) together with
    the [IntervalBucket] class it is written against ([remove], [stop],
    [dispose] with a [#disposed] flag, [readonly delay], [onEmpty(bucket)]).

    JavaScript objects are modelled as references into heaps held by a
    [world]: buckets by their allocation index, subscriptions by theirs, so
    that identity-based [Set] membership and the aliasing between the pool's
    [Map] and the timer handlers ([#handleIntervalTick.bind(this)]) are kept.
    Exceptions are an error result of a state monad over the world. *)

From Stdlib Require Import ZArith List Bool Lia Arith Relations Sorting.
Import ListNotations.

(** ** Timer handles and the timer facility ([CustomInterval]) *)

(** The value returned by [interval.set]: a number, or [undefined] for the
    bucket field before any timer was requested. *)
Inductive handle := HUndefined | HNum (z : Z).

(** JavaScript truthiness of a handle, as used by [if (this.#intervalId)]. *)
Definition truthy (h : handle) : bool :=
  match h with
  | HUndefined => false
  | HNum z => negb (Z.eqb z 0)
  end.

(** A repeating timer registered with the facility: its id, the bucket its
    handler is bound to, and its timeout. *)
Record timer := mkTimer { t_id : Z; t_handler : nat; t_timeout : Z }.

(** A [CustomInterval] that hands out consecutive numeric ids from [f_next]
    (a browser [setInterval] starts at 1; a counter-based custom
    implementation may start at 0) and keeps the live timers. *)
Record facility := mkFacility { f_next : Z; f_live : list timer }.

Definition interval_set (f : facility) (handler : nat) (timeout : Z)
  : facility * handle :=
  (mkFacility (f_next f + 1)
     (f_live f ++ [mkTimer (f_next f) handler timeout]),
   HNum (f_next f)).

Definition interval_clear (f : facility) (h : handle) : facility :=
  match h with
  | HUndefined => f
  | HNum z => mkFacility (f_next f) (filter (fun t => negb (Z.eqb (t_id t) z)) (f_live f))
  end.

(** ** Subscriptions, buckets, the world *)

(** A callback: its name, and whether calling it throws. *)
Record callback := mkCallback { cb_name : nat; cb_throws : bool }.

(** [interface IntervalSubscription { callback; once? }] *)
Record subscription := mkSub { s_callback : callback; s_once : bool }.

(** [class IntervalBucket]: [#disposed], [#intervalId], [#onEmpty] (set to the
    owner's [#onEmptyBucket] or [undefined]), [delay], [#subscriptions]
    (a [Set] of subscription references, in insertion order). *)
Record bucket := mkBucket {
  b_disposed : bool;
  b_intervalId : handle;
  b_onEmpty : bool;
  b_delay : Z;
  b_subscriptions : list nat }.

Definition set_disposed (v : bool) (b : bucket) : bucket :=
  mkBucket v (b_intervalId b) (b_onEmpty b) (b_delay b) (b_subscriptions b).
Definition set_intervalId (v : handle) (b : bucket) : bucket :=
  mkBucket (b_disposed b) v (b_onEmpty b) (b_delay b) (b_subscriptions b).
Definition set_onEmpty (v : bool) (b : bucket) : bucket :=
  mkBucket (b_disposed b) (b_intervalId b) v (b_delay b) (b_subscriptions b).
Definition set_subscriptions (v : list nat) (b : bucket) : bucket :=
  mkBucket (b_disposed b) (b_intervalId b) (b_onEmpty b) (b_delay b) v.

(** [Set.prototype.add] and [Set.prototype.delete] on the insertion-ordered
    list of members. *)
Definition set_add (s : nat) (l : list nat) : list nat :=
  if existsb (Nat.eqb s) l then l else l ++ [s].
Definition set_delete (s : nat) (l : list nat) : list nat :=
  filter (fun x => negb (Nat.eqb x s)) l.

(** Thrown values. *)
Inductive exn :=
| ExCallback (name : nat)
| ExAddDisposed      (* "Cannot add subscription to a disposed bucket" *)
| ExRemoveDisposed   (* "Cannot remove subscription from a disposed bucket" *)
| ExStopDisposed.    (* "Cannot stop a disposed bucket" *)

(** Observable effects: a subscription's callback being called, a
    [console.error] report, a bucket's [#onEmpty] notification being called. *)
Inductive event :=
| EvCall (s : nat)
| EvConsoleError (e : exn)
| EvOnEmpty (r : nat).

(** The heap of buckets, the pool's [#buckets] map (insertion ordered), the
    timer facility, the heap of subscriptions and the event log. *)
Record world := mkWorld {
  w_heap : list bucket;
  w_buckets : list (Z * nat);
  w_timers : facility;
  w_subs : list subscription;
  w_log : list event }.

Definition with_heap (w : world) h := mkWorld h (w_buckets w) (w_timers w) (w_subs w) (w_log w).
Definition with_buckets (w : world) m := mkWorld (w_heap w) m (w_timers w) (w_subs w) (w_log w).
Definition with_timers (w : world) f := mkWorld (w_heap w) (w_buckets w) f (w_subs w) (w_log w).
Definition with_subs (w : world) s := mkWorld (w_heap w) (w_buckets w) (w_timers w) s (w_log w).
Definition with_log (w : world) l := mkWorld (w_heap w) (w_buckets w) (w_timers w) (w_subs w) l.

Definition dead_bucket : bucket := mkBucket true HUndefined false 0 [].
Definition default_sub : subscription := mkSub (mkCallback 0 false) false.

Definition bucket_of (w : world) (r : nat) : bucket := nth r (w_heap w) dead_bucket.
Definition sub_of (w : world) (s : nat) : subscription := nth s (w_subs w) default_sub.

Fixpoint replace_nth {A} (n : nat) (x : A) (l : list A) : list A :=
  match l, n with
  | [], _ => []
  | _ :: t, O => x :: t
  | h :: t, S n' => h :: replace_nth n' x t
  end.

(** [Map.prototype.get], [set] and [delete] on number keys. *)
Fixpoint map_lookup (d : Z) (m : list (Z * nat)) : option nat :=
  match m with
  | [] => None
  | (k, r) :: m' => if Z.eqb k d then Some r else map_lookup d m'
  end.
Definition map_insert (d : Z) (r : nat) (m : list (Z * nat)) : list (Z * nat) :=
  match map_lookup d m with
  | Some _ => map (fun '(k, v) => if Z.eqb k d then (k, r) else (k, v)) m
  | None => m ++ [(d, r)]
  end.
Definition map_remove (d : Z) (m : list (Z * nat)) : list (Z * nat) :=
  filter (fun '(k, _) => negb (Z.eqb k d)) m.

(** ** The state and exception monad *)

Inductive result (A : Type) := Ok (a : A) | Throw (e : exn).
Arguments Ok {A} a.
Arguments Throw {A} e.

Definition M (A : Type) := world -> result A * world.

Definition ret {A} (a : A) : M A := fun w => (Ok a, w).
Definition throw {A} (e : exn) : M A := fun w => (Throw e, w).
Definition bind {A B} (m : M A) (k : A -> M B) : M B :=
  fun w => match m w with
           | (Ok a, w') => k a w'
           | (Throw e, w') => (Throw e, w')
           end.

Notation "x <- m ;; k" := (bind m (fun x => k))
  (at level 61, m at next level, right associativity).
Notation "m ;; k" := (bind m (fun _ : unit => k))
  (at level 61, right associativity).

(** [try { body } catch (e) { handler(e) } finally { finalizer }] *)
Definition try_catch_finally {A} (body : M A) (handler : exn -> M A)
  (finalizer : M unit) : M A :=
  fun w =>
    let '(r, w1) := match body w with
                    | (Ok a, w1) => (Ok a, w1)
                    | (Throw e, w1) => handler e w1
                    end in
    match finalizer w1 with
    | (Ok _, w2) => (r, w2)
    | (Throw e', w2) => (Throw e', w2)
    end.

Definition get_world : M world := fun w => (Ok w, w).
Definition get_bucket (r : nat) : M bucket := fun w => (Ok (bucket_of w r), w).
Definition get_sub (s : nat) : M subscription := fun w => (Ok (sub_of w s), w).
Definition modify_bucket (r : nat) (f : bucket -> bucket) : M unit :=
  fun w => (Ok tt, with_heap w (replace_nth r (f (bucket_of w r)) (w_heap w))).
Definition log (e : event) : M unit :=
  fun w => (Ok tt, with_log w (w_log w ++ [e])).
Definition interval_set_M (handler : nat) (timeout : Z) : M handle :=
  fun w => let '(f, h) := interval_set (w_timers w) handler timeout in
           (Ok h, with_timers w f).
Definition interval_clear_M (h : handle) : M unit :=
  fun w => (Ok tt, with_timers w (interval_clear (w_timers w) h)).
Definition map_get (d : Z) : M (option nat) :=
  fun w => (Ok (map_lookup d (w_buckets w)), w).
Definition map_set (d : Z) (r : nat) : M unit :=
  fun w => (Ok tt, with_buckets w (map_insert d r (w_buckets w))).
Definition map_delete (d : Z) : M unit :=
  fun w => (Ok tt, with_buckets w (map_remove d (w_buckets w))).
Definition map_clear : M unit := fun w => (Ok tt, with_buckets w []).
Definition alloc_bucket (b : bucket) : M nat :=
  fun w => (Ok (length (w_heap w)), with_heap w (w_heap w ++ [b])).
Definition alloc_sub (s : subscription) : M nat :=
  fun w => (Ok (length (w_subs w)), with_subs w (w_subs w ++ [s])).

(** ** [class IntervalBucket] *)

(** [#tryStart()] *)
Definition tryStart (r : nat) : M unit :=
  b <- get_bucket r ;;
  if truthy (b_intervalId b) then ret tt
  else h <- interval_set_M r (b_delay b) ;;
       modify_bucket r (set_intervalId h).

(** [add(subscription)] *)
Definition add (r : nat) (s : nat) : M unit :=
  b <- get_bucket r ;;
  if b_disposed b then throw ExAddDisposed
  else modify_bucket r (fun b => set_subscriptions (set_add s (b_subscriptions b)) b) ;;
       tryStart r.

(** [stop()] *)
Definition stop (r : nat) : M unit :=
  b <- get_bucket r ;;
  if b_disposed b then throw ExStopDisposed
  else if truthy (b_intervalId b)
       then interval_clear_M (b_intervalId b) ;;
            modify_bucket r (set_intervalId HUndefined)
       else ret tt.

(** [dispose()] *)
Definition dispose (r : nat) : M unit :=
  b <- get_bucket r ;;
  if b_disposed b then ret tt
  else modify_bucket r (set_subscriptions []) ;;
       stop r ;;
       modify_bucket r (set_onEmpty false) ;;
       modify_bucket r (set_disposed true).

(** [IntervalPool.#onEmptyBucket]: the only [onEmpty] any bucket is built
    with ([new IntervalBucket(this.#interval, delay, this.#onEmptyBucket)]). *)
Definition onEmptyBucket (r : nat) : M unit :=
  dispose r ;;
  b <- get_bucket r ;;
  map_delete (b_delay b).

(** [remove(subscription)]; the call [this.#onEmpty?.(this)] is recorded in
    the log before the owner's handler runs. *)
Definition remove (r : nat) (s : nat) : M unit :=
  b <- get_bucket r ;;
  if b_disposed b then throw ExRemoveDisposed
  else modify_bucket r (fun b => set_subscriptions (set_delete s (b_subscriptions b)) b) ;;
       b <- get_bucket r ;;
       if Nat.eqb (length (b_subscriptions b)) 0
       then stop r ;;
            b <- get_bucket r ;;
            if b_onEmpty b then log (EvOnEmpty r) ;; onEmptyBucket r
            else ret tt
       else ret tt.

(** Calling a callback whose body makes no call on the pool: it runs
    (recorded as [EvCall s]) and may throw.  Module [Reentrant] below
    embeds the same code for callbacks that call [run], [once], an
    unsubscribe capability or [clear()]. *)
Definition invoke (s : nat) (cb : callback) : M unit :=
  log (EvCall s) ;;
  if cb_throws cb then throw (ExCallback (cb_name cb)) else ret tt.

(** [#notifySubscription(subscription)] *)
Definition notifySubscription (r : nat) (s : nat) : M unit :=
  sub <- get_sub s ;;
  try_catch_finally
    (invoke s (s_callback sub))
    (fun e => log (EvConsoleError e))
    (if s_once sub then remove r s else ret tt).

(** [this.#subscriptions.forEach(this.#notifySubscription, this)].  A [Set]
    iteration visits, in insertion order, each member that is still in the
    set when it is reached, including members added during the iteration.
    With callbacks that make no call on the pool no member is added, so
    walking the members present at the start, skipping those deleted
    meanwhile, is the iteration; module [Reentrant] walks the [Set]'s
    entry list by index, for callbacks that do call into the pool. *)
Fixpoint forEach_subscriptions (r : nat) (l : list nat) : M unit :=
  match l with
  | [] => ret tt
  | s :: l' =>
      b <- get_bucket r ;;
      if existsb (Nat.eqb s) (b_subscriptions b)
      then notifySubscription r s ;; forEach_subscriptions r l'
      else forEach_subscriptions r l'
  end.

(** [#handleIntervalTick()] *)
Definition handleIntervalTick (r : nat) : M unit :=
  b <- get_bucket r ;;
  forEach_subscriptions r (b_subscriptions b).

(** [get subscriptionCount()] *)
Definition subscriptionCount (b : bucket) : nat := length (b_subscriptions b).

(** [new IntervalBucket(interval, delay, onEmpty)] *)
Definition new_bucket (d : Z) : bucket := mkBucket false HUndefined true d [].

(** ** [class IntervalPool] *)

(** [#upsertBucket(delay)] *)
Definition upsertBucket (d : Z) : M nat :=
  o <- map_get d ;;
  match o with
  | Some r => ret r
  | None => r <- alloc_bucket (new_bucket d) ;; map_set d r ;; ret r
  end.

(** The closure returned by [#subscribe]: it captures [delay] and the
    subscription object. *)
Record unsubscribe_fn := mkUnsub { u_delay : Z; u_sub : nat }.

(** The subscription object built by [run]/[once] is allocated, then
    [#subscribe(delay, subscription)] runs. *)
Definition subscribe (d : Z) (sub : subscription) : M unsubscribe_fn :=
  s <- alloc_sub sub ;;
  r <- upsertBucket d ;;
  add r s ;;
  ret (mkUnsub d s).

Definition run (d : Z) (cb : callback) : M unsubscribe_fn :=
  subscribe d (mkSub cb false).

Definition once (d : Z) (cb : callback) : M unsubscribe_fn :=
  subscribe d (mkSub cb true).

(** [() => { this.#buckets.get(delay)?.remove(subscription); }] *)
Definition unsubscribe (u : unsubscribe_fn) : M unit :=
  o <- map_get (u_delay u) ;;
  match o with
  | Some r => remove r (u_sub u)
  | None => ret tt
  end.

Fixpoint dispose_all (l : list nat) : M unit :=
  match l with
  | [] => ret tt
  | r :: l' => dispose r ;; dispose_all l'
  end.

(** [clear()]: [dispose] does not touch the map, so iterating its entries
    at the start is [Map.prototype.forEach]. *)
Definition clear : M unit :=
  w <- get_world ;;
  dispose_all (map snd (w_buckets w)) ;;
  map_clear.

Definition getActiveIntervalCount (w : world) : nat := length (w_buckets w).

Definition getSubscriptionCount (d : Z) (w : world) : nat :=
  match map_lookup d (w_buckets w) with
  | Some r => subscriptionCount (bucket_of w r)
  | None => 0
  end.

Definition getStats (w : world) : list (Z * nat) :=
  map (fun '(d, r) => (d, subscriptionCount (bucket_of w r))) (w_buckets w).

(** The timer facility calling the handler of one of its timers. *)
Definition fire (t : timer) : M unit := handleIntervalTick (t_handler t).

(** [new IntervalPool({ interval })] with a facility whose first id is
    [start]. *)
Definition init_world (start : Z) : world := mkWorld [] [] (mkFacility start []) [] [].

(** What the program can do to a pool: subscribe, call an unsubscribe
    closure, clear it, or have a live timer fire. *)
Inductive pool_step : world -> world -> Prop :=
| step_run d cb w : pool_step w (snd (run d cb w))
| step_once d cb w : pool_step w (snd (once d cb w))
| step_unsubscribe u w : pool_step w (snd (unsubscribe u w))
| step_clear w : pool_step w (snd (clear w))
| step_fire t w : In t (f_live (w_timers w)) -> pool_step w (snd (fire t w)).

Inductive reachable : world -> Prop :=
| reach_init start : reachable (init_world start)
| reach_step w w' : reachable w -> pool_step w w' -> reachable w'.

(** Subscription references whose callback was called, in call order. *)
Fixpoint calls (l : list event) : list nat :=
  match l with
  | [] => []
  | EvCall s :: l' => s :: calls l'
  | _ :: l' => calls l'
  end.

(** Timers the facility holds for a given timeout. *)
Definition live_timers_for (d : Z) (w : world) : nat :=
  length (filter (fun t => Z.eqb (t_timeout t) d) (f_live (w_timers w))).

(** Running a program from a world and keeping the resulting world. *)
Definition exec {A} (m : M A) (w : world) : world := snd (m w).

(** ** [IntervalPool.iterate(delay)]

    The async generator's locals [resolve], [stopped], [lostTicks], whether
    the subscription made by [this.run(delay, callback)] is live, and where
    the generator body is suspended: not yet started, at
    [await new Promise(...)], at [yield], or finished.  Promise
    continuations run before the next timer task, so a tick that resolves
    the awaited promise also runs the body up to its next suspension. *)
Inductive gen_pc := GenStart | GenAwait | GenYield | GenDone.

Record session := mkSession {
  it_pc : gen_pc;
  it_resolve : bool;
  it_stopped : bool;
  it_lostTicks : nat;
  it_subscribed : bool }.

Definition with_pc (st : session) pc :=
  mkSession pc (it_resolve st) (it_stopped st) (it_lostTicks st) (it_subscribed st).
Definition with_resolve (st : session) v :=
  mkSession (it_pc st) v (it_stopped st) (it_lostTicks st) (it_subscribed st).
Definition with_lostTicks (st : session) n :=
  mkSession (it_pc st) (it_resolve st) (it_stopped st) n (it_subscribed st).

(** [pool.iterate(delay)]: nothing of the body has run yet. *)
Definition iterate_init : session := mkSession GenStart false false 0 false.

(** What a call of [next()] does: its promise settles with a value before
    any further tick, waits for a tick, or reports [done]. *)
Inductive pull_result := Resolved | Suspended | Finished.

(** [finally { stopped = true; unsubscribe(); }] *)
Definition finish (st : session) : session :=
  mkSession GenDone (it_resolve st) true (it_lostTicks st) false.

(** The head of [while (!stopped) { if (lostTicks === 0) await ...; while
    (lostTicks > 0) { yield; lostTicks--; } }]. *)
Definition loop_head (st : session) : session * pull_result :=
  if it_stopped st then (finish st, Finished)
  else if Nat.eqb (it_lostTicks st) 0
       then (with_resolve (with_pc st GenAwait) true, Suspended)
       else (with_pc st GenYield, Resolved).

(** The inner [while (lostTicks > 0) { yield; ... }] entered after the
    [await] or after [lostTicks--]. *)
Definition inner_loop (st : session) : session * pull_result :=
  if Nat.ltb 0 (it_lostTicks st) then (with_pc st GenYield, Resolved)
  else loop_head st.

(** [iterator.next()], for a consumer that, like [for await], does not
    request a value while its previous request is pending. *)
Definition pull (st : session) : session * pull_result :=
  match it_pc st with
  | GenStart =>
      (* [const unsubscribe = this.run(delay, callback);] then the loop *)
      loop_head (mkSession GenAwait (it_resolve st) (it_stopped st)
                   (it_lostTicks st) true)
  | GenYield => inner_loop (with_lostTicks st (it_lostTicks st - 1))
  | GenAwait => (st, Suspended)
  | GenDone => (st, Finished)
  end.

(** A tick of the timer of [delay]: when the session's subscription is
    live, [callback] runs ([lostTicks++; if (resolve) { resolve();
    resolve = undefined; }]) and, if it settled the awaited promise, the
    body resumes; the boolean tells whether a pending [next()] settled. *)
Definition tick (st : session) : session * bool :=
  if it_subscribed st then
    let st1 := with_lostTicks st (S (it_lostTicks st)) in
    if it_resolve st1 then
      let st2 := with_resolve st1 false in
      match it_pc st2 with
      | GenAwait =>
          let '(st3, r) := inner_loop st2 in
          (st3, match r with Resolved => true | _ => false end)
      | _ => (st2, false)
      end
    else (st1, false)
  else (st, false).

(** [iterator.return()] (a [break] out of [for await]). *)
Definition gen_return (st : session) : session :=
  match it_pc st with
  | GenStart => mkSession GenDone (it_resolve st) (it_stopped st) (it_lostTicks st) false
  | GenYield => finish st
  | _ => st
  end.

Fixpoint ticks (k : nat) (st : session) : session :=
  match k with
  | O => st
  | S k' => ticks k' (fst (tick st))
  end.

(** [n] consecutive [next()] calls and their outcomes. *)
Fixpoint pulls (n : nat) (st : session) : list pull_result * session :=
  match n with
  | O => ([], st)
  | S n' =>
      let '(st1, r) := pull st in
      let '(rs, st2) := pulls n' st1 in
      (r :: rs, st2)
  end.

(** The members of a bucket's set, and of the set of the bucket the pool
    maps a period to. *)
Definition subs_of (w : world) (r : nat) : list nat := b_subscriptions (bucket_of w r).

Definition subs_at (w : world) (d : Z) : list nat :=
  match map_lookup d (w_buckets w) with
  | Some r => subs_of w r
  | None => []
  end.

(** The report a tick produces for one subscription: its callback is
    called and, when it throws, the error goes to [console.error] at once. *)
Definition report (w : world) (s : nat) : list event :=
  let cb := s_callback (sub_of w s) in
  EvCall s :: (if cb_throws cb then [EvConsoleError (ExCallback (cb_name cb))] else []).

Definition not_once (w : world) (s : nat) : bool := negb (s_once (sub_of w s)).

Definition steps : world -> world -> Prop := clos_refl_trans_1n world pool_step.

(** ** Invariants and relations between worlds *)

(** The bucket [dispose] leaves behind. *)
Definition disposed_bucket (b : bucket) : bucket :=
  mkBucket true (if truthy (b_intervalId b) then HUndefined else b_intervalId b)
    false (b_delay b) [].

(** Whether a tick over the members [l] leaves the set empty, given the
    members [K'] left at its end. *)
Definition emptied (l K' : list nat) : bool :=
  match l, K' with
  | _ :: _, [] => true
  | _, _ => false
  end.

(** Facts about the heaps and the log that every reachable world has;
    refs are allocated in increasing order, so [inv_sorted] says a set
    lists its members in registration order. *)
Record heap_inv (w : world) : Prop := {
  inv_disposed : forall r, b_disposed (bucket_of w r) = true -> subs_of w r = [];
  inv_onEmpty : forall r, b_disposed (bucket_of w r) = false -> b_onEmpty (bucket_of w r) = true;
  inv_sorted : forall r, StronglySorted lt (subs_of w r);
  inv_unique : forall r1 r2 s, In s (subs_of w r1) -> In s (subs_of w r2) -> r1 = r2;
  inv_subs_bound : forall r s, In s (subs_of w r) -> s < length (w_subs w);
  inv_calls_bound : forall s, In s (calls (w_log w)) -> s < length (w_subs w);
  inv_once : forall s, s_once (sub_of w s) = true -> In s (calls (w_log w)) ->
    count_occ Nat.eq_dec (calls (w_log w)) s = 1 /\ forall r, ~ In s (subs_of w r) }.

(** Facts about the pool's map: a period is a key exactly while its bucket
    is live and non-empty. *)
Record map_inv (w : world) : Prop := {
  inv_map : forall d r, map_lookup d (w_buckets w) = Some r ->
    b_disposed (bucket_of w r) = false /\ subs_of w r <> [] /\ b_delay (bucket_of w r) = d;
  inv_live : forall r, subs_of w r <> [] ->
    map_lookup (b_delay (bucket_of w r)) (w_buckets w) = Some r;
  inv_keys : NoDup (map fst (w_buckets w)) }.

Definition pool_inv (w : world) : Prop := heap_inv w /\ map_inv w.

(** What a step keeps: the log and the subscription objects are only
    appended to, and a subscription that has left every set never comes
    back. *)
Definition grows (w w' : world) : Prop :=
  (exists ev, w_log w' = w_log w ++ ev) /\
  (exists ss, w_subs w' = w_subs w ++ ss) /\
  (forall s, s < length (w_subs w) -> (forall r, ~ In s (subs_of w r)) ->
     forall r, ~ In s (subs_of w' r)).

Definition shrinks (w w' : world) : Prop :=
  (forall r, incl (subs_of w' r) (subs_of w r)) /\
  (forall r, b_delay (bucket_of w' r) = b_delay (bucket_of w r)) /\ w_subs w' = w_subs w /\
  exists ev, w_log w' = w_log w ++ ev.



(** ** Example pools *)

Definition cbA : callback := mkCallback 1 false.
Definition cbB : callback := mkCallback 2 false.
(** A callback that throws. *)
Definition cbT : callback := mkCallback 7 true.

(** [pool.run(1000, cbA)] on a fresh pool whose facility hands out ids from
    [start]; then [pool.run(1000, cbB)]. *)
Definition ex_one (start : Z) : world := exec (run 1000 cbA) (init_world start).
Definition ex_two (start : Z) : world := exec (run 1000 cbB) (ex_one start).

(** A throwing callback registered before a plain one. *)
Definition ex_throw : world := exec (run 1000 cbB) (exec (run 1000 cbT) (init_world 1)).

(** [pool.once(1000, cbA)]. *)
Definition ex_once : world := exec (once 1000 cbA) (init_world 1).

(** An [iterate] session once its first [next()] has started the
    body and one tick has been delivered. *)
Definition ex_session : session := fst (tick (fst (pull iterate_init))).

(** ** The earlier [class IntervalBucket] (src/src/bucket.ts)

    A bucket with its own timer and an [onStop] callback, no disposed
    state and no guard in [add].  None of its methods throws except
    through a subscription's callback, which [#handleIntervalTick] catches,
    so each method is a function on the bucket's state.  [onStop] is
    supplied by the bucket's owner; its calls are recorded in the log, as
    the tests of the bucket record them with a mock. *)
Module OldBucket.

Inductive oevent :=
| OCall (s : nat)
| OConsoleError (e : exn)
| OStop.

(** The bucket's fields, the timer facility, the subscription objects the
    members refer to, and the event log. *)
Record state := mkState {
  o_delay : Z;
  o_intervalId : handle;
  o_subscriptions : list nat;
  o_timers : facility;
  o_subs : list subscription;
  o_log : list oevent }.

Definition with_subscriptions (st : state) l :=
  mkState (o_delay st) (o_intervalId st) l (o_timers st) (o_subs st) (o_log st).
Definition with_log (st : state) lg :=
  mkState (o_delay st) (o_intervalId st) (o_subscriptions st) (o_timers st) (o_subs st) lg.

Definition sub_of (st : state) (s : nat) : subscription := nth s (o_subs st) default_sub.

(** [new IntervalBucket(interval, delay, onStop)] *)
Definition new_bucket (d : Z) (f : facility) (table : list subscription) : state :=
  mkState d HUndefined [] f table [].

(** [#tryStart()]; the handler registered is the bucket's own
    [#handleIntervalTick], named [0] in the facility. *)
Definition tryStart (st : state) : state :=
  if truthy (o_intervalId st) then st
  else let '(f, h) := interval_set (o_timers st) 0 (o_delay st) in
       mkState (o_delay st) h (o_subscriptions st) f (o_subs st) (o_log st).

(** [#tryStop()] *)
Definition tryStop (st : state) : state :=
  if Nat.ltb 0 (length (o_subscriptions st)) then st
  else if negb (truthy (o_intervalId st)) then st
  else mkState (o_delay st) HUndefined (o_subscriptions st)
         (interval_clear (o_timers st) (o_intervalId st)) (o_subs st)
         (o_log st ++ [OStop]).

(** [add(subscription)] *)
Definition add (s : nat) (st : state) : state :=
  tryStart (with_subscriptions st (set_add s (o_subscriptions st))).

(** [delete(subscription)] *)
Definition delete (s : nat) (st : state) : state :=
  tryStop (with_subscriptions st (set_delete s (o_subscriptions st))).

(** [dispose()] *)
Definition dispose (st : state) : state :=
  tryStop (with_subscriptions st []).

(** The body of the [forEach] callback in [#handleIntervalTick]:
    [try { callback(); } catch (error) { console.error(...); }
     finally { if (once) this.delete(subscription); }], for a callback
    that makes no call on the bucket. *)
Definition notifySubscription (s : nat) (st : state) : state :=
  let sub := sub_of st s in
  let st1 := with_log st (o_log st ++ [OCall s]) in
  let st2 := if cb_throws (s_callback sub)
             then with_log st1 (o_log st1 ++ [OConsoleError (ExCallback (cb_name (s_callback sub)))])
             else st1 in
  if s_once sub then delete s st2 else st2.

(** [this.#subscriptions.forEach(...)]: members present at the start,
    in insertion order, each visited if still in the set when reached;
    with callbacks that add no member, this is what [forEach] visits. *)
Fixpoint forEach_subscriptions (l : list nat) (st : state) : state :=
  match l with
  | [] => st
  | s :: l' =>
      if existsb (Nat.eqb s) (o_subscriptions st)
      then forEach_subscriptions l' (notifySubscription s st)
      else forEach_subscriptions l' st
  end.

(** [#handleIntervalTick()] *)
Definition handleIntervalTick (st : state) : state :=
  forEach_subscriptions (o_subscriptions st) st.

(** [get subscriptionCount()] *)
Definition subscriptionCount (st : state) : nat := length (o_subscriptions st).







End OldBucket.


(** ** The earlier [class IntervalPool] (src/unnamed/part_003, lines 1-272)

    Buckets are plain records [{ intervalId, subscriptions }] held in the
    map; the interval handler is a closure over [delay] and the bucket's
    [Set].  A bucket's [subscriptions] field is never reassigned, so the
    [Set] is named by the bucket's reference in a heap.  Nothing here throws
    except a subscription's callback, which the handler catches, so each
    method is a function on the world. *)
Module OldPool.

Record pbucket := mkPBucket { pb_intervalId : handle; pb_subscriptions : list nat }.

Record world := mkWorld {
  p_heap : list pbucket;
  p_buckets : list (Z * nat);
  p_timers : facility;
  p_subs : list subscription;
  p_log : list event }.

Definition dead : pbucket := mkPBucket HUndefined [].
Definition bucket_of (w : world) (r : nat) : pbucket := nth r (p_heap w) dead.
Definition subs_of (w : world) (r : nat) : list nat := pb_subscriptions (bucket_of w r).
Definition sub_of (w : world) (s : nat) : subscription := nth s (p_subs w) default_sub.

Definition with_heap (w : world) h := mkWorld h (p_buckets w) (p_timers w) (p_subs w) (p_log w).
Definition with_log (w : world) lg := mkWorld (p_heap w) (p_buckets w) (p_timers w) (p_subs w) lg.

Definition init_world (start : Z) : world := mkWorld [] [] (mkFacility start []) [] [].

(** [bucket.subscriptions.add(subscription)] *)
Definition set_add_at (r : nat) (s : nat) (w : world) : world :=
  let b := bucket_of w r in
  with_heap w (replace_nth r (mkPBucket (pb_intervalId b) (set_add s (pb_subscriptions b))) (p_heap w)).

(** [#addsubscription(delay, subscription)]; the new bucket's handler is
    the closure over [delay] and the bucket's [Set], named by the bucket's
    reference. *)
Definition addsubscription (d : Z) (s : nat) (w : world) : world :=
  match map_lookup d (p_buckets w) with
  | Some r => set_add_at r s w
  | None =>
      let r := length (p_heap w) in
      let '(f, h) := interval_set (p_timers w) r d in
      set_add_at r s
        (mkWorld (p_heap w ++ [mkPBucket h []]) (map_insert d r (p_buckets w)) f
           (p_subs w) (p_log w))
  end.

(** [run] and [once]: the subscription object is allocated, added, and
    the closure [() => this.#removeSubscription(delay, subscription)] is
    returned. *)
Definition subscribe (d : Z) (sub : subscription) (w : world) : unsubscribe_fn * world :=
  let s := length (p_subs w) in
  (mkUnsub d s,
   addsubscription d s (mkWorld (p_heap w) (p_buckets w) (p_timers w) (p_subs w ++ [sub]) (p_log w))).

Definition run (d : Z) (cb : callback) (w : world) := subscribe d (mkSub cb false) w.
Definition once (d : Z) (cb : callback) (w : world) := subscribe d (mkSub cb true) w.

(** [#removeSubscription(delay, subscription)] *)
Definition removeSubscription (d : Z) (s : nat) (w : world) : world :=
  match map_lookup d (p_buckets w) with
  | None => w
  | Some r =>
      let b := bucket_of w r in
      let b1 := mkPBucket (pb_intervalId b) (set_delete s (pb_subscriptions b)) in
      let w1 := with_heap w (replace_nth r b1 (p_heap w)) in
      if Nat.eqb (length (pb_subscriptions b1)) 0
      then mkWorld (p_heap w1) (map_remove d (p_buckets w1))
             (interval_clear (p_timers w1) (pb_intervalId b1)) (p_subs w1) (p_log w1)
      else w1
  end.

(** The body of the handler's [forEach] callback:
    [try { const { callback, once } = subscription; callback();
           if (once) this.#removeSubscription(delay, subscription); }
     catch (error) { console.error(...); }], for a callback that makes no
    call on the pool. *)
Definition notify (d : Z) (s : nat) (w : world) : world :=
  let sub := sub_of w s in
  let w1 := with_log w (p_log w ++ [EvCall s]) in
  if cb_throws (s_callback sub)
  then with_log w1 (p_log w1 ++ [EvConsoleError (ExCallback (cb_name (s_callback sub)))])
  else if s_once sub then removeSubscription d s w1 else w1.

(** [subscriptions.forEach(...)] over the bucket's [Set], with callbacks
    that add no member: the members present at the start, each visited if
    still in the set when reached. *)
Fixpoint forEach_subscriptions (r : nat) (d : Z) (l : list nat) (w : world) : world :=
  match l with
  | [] => w
  | s :: l' =>
      if existsb (Nat.eqb s) (subs_of w r)
      then forEach_subscriptions r d l' (notify d s w)
      else forEach_subscriptions r d l' w
  end.

(** The interval handler of the bucket [r] made for [delay]. *)
Definition handler (r : nat) (d : Z) (w : world) : world :=
  forEach_subscriptions r d (subs_of w r) w.

Definition fire (t : timer) (w : world) : world := handler (t_handler t) (t_timeout t) w.

(** [clear()]: [this.#buckets.forEach(...)] then [this.#buckets.clear()]. *)
Definition clear_bucket (r : nat) (w : world) : world :=
  let b := bucket_of w r in
  mkWorld (replace_nth r (mkPBucket (pb_intervalId b) []) (p_heap w)) (p_buckets w)
    (interval_clear (p_timers w) (pb_intervalId b)) (p_subs w) (p_log w).

Fixpoint clear_all (m : list (Z * nat)) (w : world) : world :=
  match m with
  | [] => w
  | (_, r) :: m' => clear_all m' (clear_bucket r w)
  end.

Definition clear (w : world) : world :=
  let w1 := clear_all (p_buckets w) w in
  mkWorld (p_heap w1) [] (p_timers w1) (p_subs w1) (p_log w1).


Definition getSubscriptionCount (d : Z) (w : world) : nat :=
  match map_lookup d (p_buckets w) with
  | Some r => length (subs_of w r)
  | None => 0
  end.

Definition getStats (w : world) : list (Z * nat) :=
  map (fun '(d, r) => (d, length (subs_of w r))) (p_buckets w).



Definition subs_at (w : world) (d : Z) : list nat :=
  match map_lookup d (p_buckets w) with
  | Some r => subs_of w r
  | None => []
  end.

Definition live_timers_for (d : Z) (w : world) : nat :=
  length (filter (fun t => Z.eqb (t_timeout t) d) (f_live (p_timers w))).

Definition report (w : world) (s : nat) : list event :=
  let cb := s_callback (sub_of w s) in
  EvCall s :: (if cb_throws cb then [EvConsoleError (ExCallback (cb_name cb))] else []).



End OldPool.

(** The earlier [iterate(delay)] (part_003, lines 165-189): the locals
    [resolve] and [stopped], whether its subscription is live, and where the
    body is suspended.  The callback only settles a pending promise. *)
Module OldIterate.

Record session := mkSession {
  o_pc : gen_pc;
  o_resolve : bool;
  o_stopped : bool;
  o_subscribed : bool }.

Definition init : session := mkSession GenStart false false false.

(** [iterator.next()]: from the start, [run] then the loop's [await];
    from [yield], back to the loop head and its [await]. *)
Definition pull (st : session) : session * pull_result :=
  match o_pc st with
  | GenStart => (mkSession GenAwait true (o_stopped st) true, Suspended)
  | GenYield =>
      if o_stopped st then (mkSession GenDone (o_resolve st) true false, Finished)
      else (mkSession GenAwait true (o_stopped st) (o_subscribed st), Suspended)
  | GenAwait => (st, Suspended)
  | GenDone => (st, Finished)
  end.

(** A tick: [if (resolve) { resolve(); resolve = null; }]; a settled
    [await] resumes the body up to its [yield]. *)
Definition tick (st : session) : session * bool :=
  if o_subscribed st && o_resolve st then
    match o_pc st with
    | GenAwait => (mkSession GenYield false (o_stopped st) (o_subscribed st), true)
    | _ => (mkSession (o_pc st) false (o_stopped st) (o_subscribed st), false)
    end
  else (st, false).

Fixpoint ticks (k : nat) (st : session) : session :=
  match k with
  | O => st
  | S k' => ticks k' (fst (tick st))
  end.

(** The sessions a consumer can drive from [init] by pulls and ticks. *)
Inductive sreach : session -> Prop :=
| sreach_init : sreach init
| sreach_pull st : sreach st -> sreach (fst (pull st))
| sreach_tick st : sreach st -> sreach (fst (tick st)).

End OldIterate.


(** ** Callbacks that call back into the pool

    The model above calls a callback without letting it touch the pool.  A
    real callback may call [run], [once], an unsubscribe capability or
    [clear()] while a tick is running, and a [Set] iterated by [forEach]
    sees those changes.  This module embeds the same [IntervalBucket] and
    [IntervalPool] code without that restriction:
    - a [Set] is its ECMAScript [[SetData]] list: [add] appends an entry,
      [delete] and [clear] leave empty slots ([None]) in place, and
      [forEach] walks the list by index, re-reading it after each callback,
      so it visits members added during the walk and skips deleted ones;
    - a callback runs the pool calls that [behaviour] gives for its name
      and the world at the moment it is called, then returns or throws
      as [cb_throws] says;
    - a walk that re-adds members without end does not return; the walk
      takes fuel and returns [None] when the fuel runs out. *)
Module Reentrant.

Definition entry_is (s : nat) (e : option nat) : bool :=
  match e with Some x => Nat.eqb x s | None => false end.

(** The members of a [Set], in insertion order. *)
Fixpoint members (es : list (option nat)) : list nat :=
  match es with
  | [] => []
  | Some x :: es' => x :: members es'
  | None :: es' => members es'
  end.

(** [Set.prototype.has], [size], [add], [delete] and [clear]. *)
Definition set_has (s : nat) (es : list (option nat)) : bool := existsb (entry_is s) es.
Definition set_size (es : list (option nat)) : nat := length (members es).
Definition set_add (s : nat) (es : list (option nat)) : list (option nat) :=
  if set_has s es then es else es ++ [Some s].
Fixpoint set_delete (s : nat) (es : list (option nat)) : list (option nat) :=
  match es with
  | [] => []
  | e :: es' => if entry_is s e then None :: es' else e :: set_delete s es'
  end.
Definition set_clear (es : list (option nat)) : list (option nat) :=
  map (fun _ => None) es.

Record bucket := mkBucket {
  b_disposed : bool;
  b_intervalId : handle;
  b_onEmpty : bool;
  b_delay : Z;
  b_entries : list (option nat) }.

Definition set_disposed (v : bool) (b : bucket) : bucket :=
  mkBucket v (b_intervalId b) (b_onEmpty b) (b_delay b) (b_entries b).
Definition set_intervalId (v : handle) (b : bucket) : bucket :=
  mkBucket (b_disposed b) v (b_onEmpty b) (b_delay b) (b_entries b).
Definition set_onEmpty (v : bool) (b : bucket) : bucket :=
  mkBucket (b_disposed b) (b_intervalId b) v (b_delay b) (b_entries b).
Definition set_entries (v : list (option nat)) (b : bucket) : bucket :=
  mkBucket (b_disposed b) (b_intervalId b) (b_onEmpty b) (b_delay b) v.

Record world := mkWorld {
  w_heap : list bucket;
  w_buckets : list (Z * nat);
  w_timers : facility;
  w_subs : list subscription;
  w_log : list event }.

Definition with_heap (w : world) h := mkWorld h (w_buckets w) (w_timers w) (w_subs w) (w_log w).
Definition with_buckets (w : world) m := mkWorld (w_heap w) m (w_timers w) (w_subs w) (w_log w).
Definition with_timers (w : world) f := mkWorld (w_heap w) (w_buckets w) f (w_subs w) (w_log w).
Definition with_subs (w : world) s := mkWorld (w_heap w) (w_buckets w) (w_timers w) s (w_log w).
Definition with_log (w : world) l := mkWorld (w_heap w) (w_buckets w) (w_timers w) (w_subs w) l.

Definition dead_bucket : bucket := mkBucket true HUndefined false 0 [].

Definition bucket_of (w : world) (r : nat) : bucket := nth r (w_heap w) dead_bucket.
Definition sub_of (w : world) (s : nat) : subscription := nth s (w_subs w) default_sub.
Definition entries_of (w : world) (r : nat) : list (option nat) := b_entries (bucket_of w r).

Definition M (A : Type) := world -> result A * world.

Definition ret {A} (a : A) : M A := fun w => (Ok a, w).
Definition throw {A} (e : exn) : M A := fun w => (Throw e, w).
Definition bind {A B} (m : M A) (k : A -> M B) : M B :=
  fun w => match m w with
           | (Ok a, w') => k a w'
           | (Throw e, w') => (Throw e, w')
           end.

#[warnings="-notation-overridden"] Local Notation "x <- m ;; k" := (bind m (fun x => k))
  (at level 61, m at next level, right associativity).
#[warnings="-notation-overridden"] Local Notation "m ;; k" := (bind m (fun _ : unit => k))
  (at level 61, right associativity).

Definition try_catch_finally {A} (body : M A) (handler : exn -> M A)
  (finalizer : M unit) : M A :=
  fun w =>
    let '(r, w1) := match body w with
                    | (Ok a, w1) => (Ok a, w1)
                    | (Throw e, w1) => handler e w1
                    end in
    match finalizer w1 with
    | (Ok _, w2) => (r, w2)
    | (Throw e', w2) => (Throw e', w2)
    end.

Definition get_world : M world := fun w => (Ok w, w).
Definition get_bucket (r : nat) : M bucket := fun w => (Ok (bucket_of w r), w).
Definition get_sub (s : nat) : M subscription := fun w => (Ok (sub_of w s), w).
Definition modify_bucket (r : nat) (f : bucket -> bucket) : M unit :=
  fun w => (Ok tt, with_heap w (replace_nth r (f (bucket_of w r)) (w_heap w))).
Definition log (e : event) : M unit :=
  fun w => (Ok tt, with_log w (w_log w ++ [e])).
Definition interval_set_M (handler : nat) (timeout : Z) : M handle :=
  fun w => let '(f, h) := interval_set (w_timers w) handler timeout in
           (Ok h, with_timers w f).
Definition interval_clear_M (h : handle) : M unit :=
  fun w => (Ok tt, with_timers w (interval_clear (w_timers w) h)).
Definition map_get (d : Z) : M (option nat) :=
  fun w => (Ok (map_lookup d (w_buckets w)), w).
Definition map_set (d : Z) (r : nat) : M unit :=
  fun w => (Ok tt, with_buckets w (map_insert d r (w_buckets w))).
Definition map_delete (d : Z) : M unit :=
  fun w => (Ok tt, with_buckets w (map_remove d (w_buckets w))).
Definition map_clear : M unit := fun w => (Ok tt, with_buckets w []).
Definition alloc_bucket (b : bucket) : M nat :=
  fun w => (Ok (length (w_heap w)), with_heap w (w_heap w ++ [b])).
Definition alloc_sub (s : subscription) : M nat :=
  fun w => (Ok (length (w_subs w)), with_subs w (w_subs w ++ [s])).

(** [#tryStart()] *)
Definition tryStart (r : nat) : M unit :=
  b <- get_bucket r ;;
  if truthy (b_intervalId b) then ret tt
  else h <- interval_set_M r (b_delay b) ;;
       modify_bucket r (set_intervalId h).

(** [add(subscription)] *)
Definition add (r : nat) (s : nat) : M unit :=
  b <- get_bucket r ;;
  if b_disposed b then throw ExAddDisposed
  else modify_bucket r (fun b => set_entries (set_add s (b_entries b)) b) ;;
       tryStart r.

(** [stop()] *)
Definition stop (r : nat) : M unit :=
  b <- get_bucket r ;;
  if b_disposed b then throw ExStopDisposed
  else if truthy (b_intervalId b)
       then interval_clear_M (b_intervalId b) ;;
            modify_bucket r (set_intervalId HUndefined)
       else ret tt.

(** [dispose()] *)
Definition dispose (r : nat) : M unit :=
  b <- get_bucket r ;;
  if b_disposed b then ret tt
  else modify_bucket r (fun b => set_entries (set_clear (b_entries b)) b) ;;
       stop r ;;
       modify_bucket r (set_onEmpty false) ;;
       modify_bucket r (set_disposed true).

(** [IntervalPool.#onEmptyBucket] *)
Definition onEmptyBucket (r : nat) : M unit :=
  dispose r ;;
  b <- get_bucket r ;;
  map_delete (b_delay b).

(** [remove(subscription)] *)
Definition remove (r : nat) (s : nat) : M unit :=
  b <- get_bucket r ;;
  if b_disposed b then throw ExRemoveDisposed
  else modify_bucket r (fun b => set_entries (set_delete s (b_entries b)) b) ;;
       b <- get_bucket r ;;
       if Nat.eqb (set_size (b_entries b)) 0
       then stop r ;;
            b <- get_bucket r ;;
            if b_onEmpty b then log (EvOnEmpty r) ;; onEmptyBucket r
            else ret tt
       else ret tt.

(** [new IntervalBucket(interval, delay, onEmpty)] *)
Definition new_bucket (d : Z) : bucket := mkBucket false HUndefined true d [].

(** [#upsertBucket(delay)] *)
Definition upsertBucket (d : Z) : M nat :=
  o <- map_get d ;;
  match o with
  | Some r => ret r
  | None => r <- alloc_bucket (new_bucket d) ;; map_set d r ;; ret r
  end.

(** [run]/[once] allocate the subscription object, then [#subscribe]. *)
Definition subscribe (d : Z) (sub : subscription) : M unsubscribe_fn :=
  s <- alloc_sub sub ;;
  r <- upsertBucket d ;;
  add r s ;;
  ret (mkUnsub d s).

Definition run (d : Z) (cb : callback) : M unsubscribe_fn :=
  subscribe d (mkSub cb false).

Definition once (d : Z) (cb : callback) : M unsubscribe_fn :=
  subscribe d (mkSub cb true).

(** [() => { this.#buckets.get(delay)?.remove(subscription); }] *)
Definition unsubscribe (u : unsubscribe_fn) : M unit :=
  o <- map_get (u_delay u) ;;
  match o with
  | Some r => remove r (u_sub u)
  | None => ret tt
  end.

Fixpoint dispose_all (l : list nat) : M unit :=
  match l with
  | [] => ret tt
  | r :: l' => dispose r ;; dispose_all l'
  end.

(** [clear()] *)
Definition clear : M unit :=
  w <- get_world ;;
  dispose_all (map snd (w_buckets w)) ;;
  map_clear.

(** A call a callback makes to the pool. *)
Inductive action :=
| ARun (d : Z) (cb : callback)
| AOnce (d : Z) (cb : callback)
| AUnsubscribe (u : unsubscribe_fn)
| AClear.

Definition act (a : action) : M unit :=
  match a with
  | ARun d cb => _ <- run d cb ;; ret tt
  | AOnce d cb => _ <- once d cb ;; ret tt
  | AUnsubscribe u => unsubscribe u
  | AClear => clear
  end.

Fixpoint perform (l : list action) : M unit :=
  match l with
  | [] => ret tt
  | a :: l' => act a ;; perform l'
  end.

Section Callbacks.

(** What each callback does when it is called, by name, given the world at
    that moment. *)
Variable behaviour : nat -> world -> list action.

(** [callback()]: it runs (recorded as [EvCall s]), makes its pool calls,
    and returns or throws. *)
Definition invoke (s : nat) (cb : callback) : M unit :=
  log (EvCall s) ;;
  w <- get_world ;;
  perform (behaviour (cb_name cb) w) ;;
  if cb_throws cb then throw (ExCallback (cb_name cb)) else ret tt.

(** [#notifySubscription(subscription)] *)
Definition notifySubscription (r : nat) (s : nat) : M unit :=
  sub <- get_sub s ;;
  try_catch_finally
    (invoke s (s_callback sub))
    (fun e => log (EvConsoleError e))
    (if s_once sub then remove r s else ret tt).

(** [this.#subscriptions.forEach(this.#notifySubscription, this)] from
    the entry at index [i] on: the entry list of the bucket is read again
    at each index, an empty slot is skipped, and an exception ends the
    walk and leaves [forEach]. *)
Fixpoint forEach_from (fuel : nat) (r i : nat) (w : world) : option (result unit * world) :=
  match fuel with
  | O => None
  | S fuel' =>
      match nth_error (entries_of w r) i with
      | None => Some (Ok tt, w)
      | Some None => forEach_from fuel' r (S i) w
      | Some (Some s) =>
          match notifySubscription r s w with
          | (Ok _, w1) => forEach_from fuel' r (S i) w1
          | (Throw e, w1) => Some (Throw e, w1)
          end
      end
  end.

(** [#handleIntervalTick()] *)
Definition handleIntervalTick (fuel r : nat) (w : world) : option (result unit * world) :=
  forEach_from fuel r 0 w.

(** The timer facility calling the handler of one of its timers; the world
    after it, whether the handler returned or threw. *)
Inductive pool_step : world -> world -> Prop :=
| step_run d cb w : pool_step w (snd (run d cb w))
| step_once d cb w : pool_step w (snd (once d cb w))
| step_unsubscribe u w : pool_step w (snd (unsubscribe u w))
| step_clear w : pool_step w (snd (clear w))
| step_fire t fuel w res w' :
    In t (f_live (w_timers w)) ->
    handleIntervalTick fuel (t_handler t) w = Some (res, w') -> pool_step w w'.

End Callbacks.

Definition init_world (start : Z) : world := mkWorld [] [] (mkFacility start []) [] [].

Inductive reachable (behaviour : nat -> world -> list action) : world -> Prop :=
| reach_init start : reachable behaviour (init_world start)
| reach_step w w' : reachable behaviour w -> pool_step behaviour w w' ->
    reachable behaviour w'.

Definition exec {A} (m : M A) (w : world) : world := snd (m w).

(** The members of the set of the bucket the pool maps a period to; its
    size is [getSubscriptionCount(delay)]. *)
Definition subs_at (w : world) (d : Z) : list nat :=
  match map_lookup d (w_buckets w) with
  | Some r => members (entries_of w r)
  | None => []
  end.

Definition getSubscriptionCount (d : Z) (w : world) : nat := length (subs_at w d).

(** [const u = pool.once(1000, () => { u(); throw error; })]: the callback
    named 7 calls the capability of subscription 0 at period 1000. *)
Definition self_unsubscribing (n : nat) (_ : world) : list action :=
  if Nat.eqb n 7 then [AUnsubscribe (mkUnsub 1000 0)] else [].

Definition ex_self : world := exec (once 1000 cbT) (init_world 1).

(** [pool.run(1000, a)] where [a] calls [pool.run(1000, b)] on each call. *)
Definition adding (n : nat) (_ : world) : list action :=
  if Nat.eqb n 1 then [ARun 1000 cbB] else [].

Definition ex_adding : world := exec (run 1000 cbB) (exec (once 1000 cbA) (init_world 1)).

(** ** Relations and invariants for the proofs about this model *)

(** The bucket [dispose] leaves behind. *)
Definition disposed_bucket (b : bucket) : bucket :=
  mkBucket true (if truthy (b_intervalId b) then HUndefined else b_intervalId b)
    false (b_delay b) (set_clear (b_entries b)).

(** [es'] is [es] with some entries emptied. *)
Definition punch (es es' : list (option nat)) : Prop :=
  Forall2 (fun e e' => e' = e \/ e' = None) es es'.

(** What the methods that add nothing do: the subscription objects stay,
    the log grows by no callback call, sets only lose entries, and a bucket
    that becomes disposed has an empty set. *)
Definition safe (w w' : world) : Prop :=
  w_subs w' = w_subs w /\
  (exists ev, w_log w' = w_log w ++ ev /\ calls ev = []) /\
  (forall r, punch (entries_of w r) (entries_of w' r)) /\
  (forall r, b_disposed (bucket_of w' r) = true ->
     b_disposed (bucket_of w r) = true \/ members (entries_of w' r) = []).

(** What any run of pool code does: the subscription objects and the log
    grow at the end, and each set loses entries and gains, at its end,
    entries for subscriptions allocated meanwhile. *)
Definition evolve (w w' : world) : Prop :=
  (exists ss, w_subs w' = w_subs w ++ ss) /\
  (exists ev, w_log w' = w_log w ++ ev) /\
  (forall r, exists es1 added,
     entries_of w' r = es1 ++ added /\ punch (entries_of w r) es1 /\
     forall x, In (Some x) added -> length (w_subs w) <= x).

(** Facts every reachable world has.  [ex] names the subscription whose
    callback is running and its bucket: a [once] subscription whose
    callback was called is in no set, except that one until its
    [finally] has run. *)
Record inv (ex : option (nat * nat)) (w : world) : Prop := {
  i_sorted : forall r, StronglySorted lt (members (entries_of w r));
  i_bound : forall r x, In x (members (entries_of w r)) -> x < length (w_subs w);
  i_unique : forall r1 r2 x, In x (members (entries_of w r1)) ->
    In x (members (entries_of w r2)) -> r1 = r2;
  i_disposed : forall r, b_disposed (bucket_of w r) = true -> members (entries_of w r) = [];
  i_calls : forall s, In s (calls (w_log w)) -> s < length (w_subs w);
  i_once : forall s, s_once (sub_of w s) = true -> In s (calls (w_log w)) ->
    count_occ Nat.eq_dec (calls (w_log w)) s = 1 /\
    forall r, In s (members (entries_of w r)) -> ex = Some (s, r) }.

(** The pool's map only holds live buckets, each under its own delay. *)
Definition map_ok (w : world) : Prop :=
  forall d r, map_lookup d (w_buckets w) = Some r ->
    b_disposed (bucket_of w r) = false /\ b_delay (bucket_of w r) = d.

(** A method always relates the world before and after it by [R], or
    keeps [P]. *)
Definition rel_op {A} (R : world -> world -> Prop) (m : M A) : Prop :=
  forall w, R w (snd (m w)).

Definition keeps {A} (P : world -> Prop) (m : M A) : Prop :=
  forall w, P w -> P (snd (m w)).

End Reentrant.

(** ** Lemmas on the heap and the map *)

Lemma replace_nth_length {A} (n : nat) (x : A) (l : list A) :
  length (replace_nth n x l) = length l.
Proof.
  revert n; induction l as [|h t IH]; intros [|n]; simpl; auto.
Qed.

Lemma nth_replace_nth {A} (n m : nat) (x d : A) (l : list A) :
  n < length l -> nth m (replace_nth n x l) d = if Nat.eqb m n then x else nth m l d.
Proof.
  revert n m; induction l as [|h t IH]; intros [|n] [|m] Hn; simpl in *;
    try lia; try reflexivity; apply IH; lia.
Qed.

Lemma replace_nth_nth {A} (n : nat) (d : A) (l : list A) :
  replace_nth n (nth n l d) l = l.
Proof.
  revert n; induction l as [|h t IH]; intros [|n]; simpl; f_equal; auto.
Qed.

Lemma replace_nth_twice {A} (n : nat) (x y : A) (l : list A) :
  replace_nth n x (replace_nth n y l) = replace_nth n x l.
Proof.
  revert n; induction l as [|h t IH]; intros [|n]; simpl; f_equal; auto.
Qed.

Lemma live_bucket_in_heap (w : world) (r : nat) :
  b_disposed (bucket_of w r) = false -> r < length (w_heap w).
Proof.
  unfold bucket_of; intros H.
  destruct (Nat.lt_ge_cases r (length (w_heap w))) as [Hlt|Hge]; auto.
  rewrite nth_overflow in H by exact Hge; discriminate.
Qed.

Lemma bucket_of_replace (w : world) (r r' : nat) (x : bucket) (h : list bucket) :
  r < length h ->
  nth r' (replace_nth r x h) dead_bucket = if Nat.eqb r' r then x else nth r' h dead_bucket.
Proof. apply nth_replace_nth. Qed.

Lemma existsb_eqb_In (s : nat) (l : list nat) : existsb (Nat.eqb s) l = true <-> In s l.
Proof.
  rewrite existsb_exists; split.
  - intros [x [Hx Heq]]; apply Nat.eqb_eq in Heq; subst; exact Hx.
  - intros H; exists s; split; [exact H | apply Nat.eqb_refl].
Qed.

Lemma set_delete_notin (s : nat) (l : list nat) : ~ In s l -> set_delete s l = l.
Proof.
  unfold set_delete; induction l as [|x l IH]; simpl; intros H; auto.
  destruct (Nat.eqb_spec x s); [subst; tauto|]; simpl; f_equal; auto.
Qed.

Lemma set_delete_In (s x : nat) (l : list nat) : In x (set_delete s l) <-> In x l /\ x <> s.
Proof.
  unfold set_delete; rewrite filter_In; split.
  - intros [H1 H2]; split; auto; intros ->; rewrite Nat.eqb_refl in H2; discriminate.
  - intros [H1 H2]; split; auto; apply negb_true_iff, Nat.eqb_neq; auto.
Qed.

Lemma set_delete_middle (s : nat) (K l : list nat) :
  NoDup (K ++ s :: l) -> set_delete s (K ++ s :: l) = K ++ l.
Proof.
  intros Hnd; apply NoDup_remove_2 in Hnd.
  unfold set_delete; rewrite filter_app; simpl; rewrite Nat.eqb_refl; simpl.
  rewrite <- filter_app; apply set_delete_notin; exact Hnd.
Qed.


Lemma map_lookup_remove (d d' : Z) (m : list (Z * nat)) :
  map_lookup d' (map_remove d m) = if Z.eqb d' d then None else map_lookup d' m.
Proof.
  induction m as [|[k v] m IH]; simpl.
  - destruct (Z.eqb d' d); auto.
  - destruct (Z.eqb_spec k d) as [->|Hkd]; simpl.
    + rewrite IH. destruct (Z.eqb_spec d' d) as [->|Hd]; auto.
      destruct (Z.eqb_spec d d'); auto; lia.
    + destruct (Z.eqb_spec k d') as [->|Hkd']; auto.
      destruct (Z.eqb_spec d' d); auto; lia.
Qed.

Lemma map_lookup_In (d : Z) (r : nat) (m : list (Z * nat)) :
  map_lookup d m = Some r -> In (d, r) m.
Proof.
  induction m as [|[k v] m IH]; simpl; [discriminate|].
  destruct (Z.eqb_spec k d); intros H; [inversion H; subst; auto | auto].
Qed.

Lemma map_lookup_None_notin (d : Z) (m : list (Z * nat)) :
  map_lookup d m = None -> ~ In d (map fst m).
Proof.
  induction m as [|[k v] m IH]; simpl; auto.
  destruct (Z.eqb_spec k d); [discriminate|]. intros H [H'|H']; [lia | apply IH; auto].
Qed.

Lemma map_lookup_app_new (d d' : Z) (r : nat) (m : list (Z * nat)) :
  map_lookup d m = None ->
  map_lookup d' (m ++ [(d, r)]) = if Z.eqb d' d then Some r else map_lookup d' m.
Proof.
  induction m as [|[k v] m IH]; simpl; intros H.
  - destruct (Z.eqb_spec d d'), (Z.eqb_spec d' d); subst; auto; lia.
  - destruct (Z.eqb_spec k d); [discriminate|].
    destruct (Z.eqb_spec k d'); subst; auto.
    destruct (Z.eqb_spec d' d); subst; auto; lia.
Qed.

Lemma nth_replace_same {A} (n : nat) (x d : A) (l : list A) :
  n < length l -> nth n (replace_nth n x l) d = x.
Proof. intros H; rewrite nth_replace_nth by exact H; rewrite Nat.eqb_refl; reflexivity. Qed.

(** ** What the bucket methods do *)

Lemma stop_eq (w : world) (r : nat) :
  b_disposed (bucket_of w r) = false ->
  stop r w =
  (Ok tt,
   if truthy (b_intervalId (bucket_of w r))
   then mkWorld (replace_nth r (set_intervalId HUndefined (bucket_of w r)) (w_heap w))
          (w_buckets w) (interval_clear (w_timers w) (b_intervalId (bucket_of w r)))
          (w_subs w) (w_log w)
   else w).
Proof.
  intros H; unfold stop, bind, get_bucket; rewrite H.
  destruct (truthy _); reflexivity.
Qed.

Lemma dispose_eq (w : world) (r : nat) :
  b_disposed (bucket_of w r) = false ->
  dispose r w =
  (Ok tt,
   mkWorld (replace_nth r (disposed_bucket (bucket_of w r)) (w_heap w)) (w_buckets w)
     (if truthy (b_intervalId (bucket_of w r))
      then interval_clear (w_timers w) (b_intervalId (bucket_of w r)) else w_timers w)
     (w_subs w) (w_log w)).
Proof.
  intros H. pose proof (live_bucket_in_heap w r H) as Hr.
  unfold dispose, bind, get_bucket, modify_bucket; rewrite H.
  unfold with_heap at 1; rewrite stop_eq; unfold bucket_of in *; simpl;
    rewrite nth_replace_same by exact Hr; [|exact H].
  unfold disposed_bucket, set_subscriptions, set_intervalId, set_onEmpty, set_disposed.
  simpl.
  destruct (truthy (b_intervalId (nth r (w_heap w) dead_bucket))) eqn:Ht; simpl;
    rewrite ?replace_nth_twice, ?nth_replace_same
      by (rewrite ?replace_nth_length; exact Hr);
    simpl; rewrite ?replace_nth_twice; reflexivity.
Qed.

Lemma remove_eq (w : world) (r s : nat) :
  b_disposed (bucket_of w r) = false ->
  b_onEmpty (bucket_of w r) = true ->
  remove r s w =
  (Ok tt,
   match set_delete s (subs_of w r) with
   | [] =>
       mkWorld (replace_nth r (disposed_bucket (bucket_of w r)) (w_heap w))
         (map_remove (b_delay (bucket_of w r)) (w_buckets w))
         (if truthy (b_intervalId (bucket_of w r))
          then interval_clear (w_timers w) (b_intervalId (bucket_of w r)) else w_timers w)
         (w_subs w) (w_log w ++ [EvOnEmpty r])
   | _ :: _ =>
       with_heap w (replace_nth r (set_subscriptions (set_delete s (subs_of w r))
                                     (bucket_of w r)) (w_heap w))
   end).
Proof.
  intros H Ho. pose proof (live_bucket_in_heap w r H) as Hr.
  unfold remove, bind, get_bucket, modify_bucket, log, onEmptyBucket; rewrite H.
  unfold subs_of, bucket_of in *; simpl.
  rewrite nth_replace_same by exact Hr. simpl.
  destruct (set_delete s (b_subscriptions (nth r (w_heap w) dead_bucket))) as [|x l'] eqn:Hl;
    simpl; [|reflexivity].
  rewrite stop_eq by (unfold bucket_of; simpl; rewrite nth_replace_same by exact Hr; exact H).
  unfold bucket_of; simpl. rewrite nth_replace_same by exact Hr. simpl.
  destruct (truthy (b_intervalId (nth r (w_heap w) dead_bucket))) eqn:Ht; simpl;
    rewrite ?nth_replace_same by (rewrite ?replace_nth_length; exact Hr); simpl;
    rewrite Ho; unfold bind, with_log; rewrite dispose_eq;
    unfold bucket_of; simpl;
    rewrite ?nth_replace_same by (rewrite ?replace_nth_length; exact Hr); simpl;
    try exact H;
    unfold map_delete, get_bucket, bucket_of, with_buckets, disposed_bucket; simpl;
    rewrite ?replace_nth_twice, ?nth_replace_same by (rewrite ?replace_nth_length; exact Hr);
    simpl; rewrite ?Ht; reflexivity.
Qed.

Lemma with_log_twice (w : world) (a b : list event) : with_log (with_log w a) b = with_log w b.
Proof. reflexivity. Qed.

Lemma notify_eq (w : world) (r s : nat) :
  notifySubscription r s w =
  if s_once (sub_of w s)
  then remove r s (with_log w (w_log w ++ report w s))
  else (Ok tt, with_log w (w_log w ++ report w s)).
Proof.
  unfold notifySubscription, bind, get_sub, try_catch_finally, invoke, bind, log, report.
  simpl. destruct (cb_throws (s_callback (sub_of w s))); simpl;
    rewrite <- ?app_assoc; simpl;
    destruct (s_once (sub_of w s)); try reflexivity;
    rewrite ?with_log_twice;
    match goal with |- _ = ?m => destruct m as [[[]|e] w'] end; reflexivity.
Qed.

Lemma bucket_eta (b : bucket) : set_subscriptions (b_subscriptions b) b = b.
Proof. destruct b; reflexivity. Qed.

Lemma world_eta (w : world) : mkWorld (w_heap w) (w_buckets w) (w_timers w) (w_subs w) (w_log w) = w.
Proof. destruct w; reflexivity. Qed.

Lemma bucket_of_with_log (w : world) (l : list event) (r : nat) :
  bucket_of (with_log w l) r = bucket_of w r.
Proof. reflexivity. Qed.

Lemma subs_of_with_log (w : world) (l : list event) (r : nat) :
  subs_of (with_log w l) r = subs_of w r.
Proof. reflexivity. Qed.

Lemma sub_of_with_log (w : world) (l : list event) (s : nat) :
  sub_of (with_log w l) s = sub_of w s.
Proof. reflexivity. Qed.

Lemma sub_of_with_heap (w : world) (h : list bucket) (s : nat) :
  sub_of (with_heap w h) s = sub_of w s.
Proof. reflexivity. Qed.

Lemma report_same_subs (w w' : world) :
  w_subs w' = w_subs w -> report w' = report w /\ not_once w' = not_once w.
Proof. intros H; unfold report, not_once, sub_of; rewrite H; split; reflexivity. Qed.

Lemma emptied_cons (s : nat) (l X : list nat) :
  X <> [] \/ l <> [] -> emptied (s :: l) X = emptied l X.
Proof. destruct l, X; simpl; intros [H|H]; congruence. Qed.

Lemma bucket_of_with_heap_replace (w : world) (r r' : nat) (b : bucket) :
  r < length (w_heap w) ->
  bucket_of (with_heap w (replace_nth r b (w_heap w))) r' =
  if Nat.eqb r' r then b else bucket_of w r'.
Proof. intros H; unfold bucket_of; simpl; apply nth_replace_nth; exact H. Qed.

Lemma forEach_eq (r : nat) (l : list nat) : forall (K : list nat) (w : world),
  subs_of w r = K ++ l -> NoDup (K ++ l) ->
  (l <> [] -> b_disposed (bucket_of w r) = false /\ b_onEmpty (bucket_of w r) = true) ->
  forEach_subscriptions r l w =
  (Ok tt,
   let b := bucket_of w r in
   let K' := K ++ filter (not_once w) l in
   if emptied l K'
   then mkWorld (replace_nth r (disposed_bucket b) (w_heap w))
          (map_remove (b_delay b) (w_buckets w))
          (if truthy (b_intervalId b)
           then interval_clear (w_timers w) (b_intervalId b) else w_timers w)
          (w_subs w) (w_log w ++ flat_map (report w) l ++ [EvOnEmpty r])
   else mkWorld (replace_nth r (set_subscriptions K' b) (w_heap w)) (w_buckets w)
          (w_timers w) (w_subs w) (w_log w ++ flat_map (report w) l)).
Proof.
  induction l as [|s l IH]; intros K w Hs Hnd Hlive.
  - simpl. rewrite app_nil_r in Hs. unfold ret. rewrite <- Hs. unfold subs_of.
    rewrite !app_nil_r, bucket_eta. unfold bucket_of. rewrite replace_nth_nth, world_eta. reflexivity.
  - destruct (Hlive ltac:(discriminate)) as [Hd Ho].
    pose proof (live_bucket_in_heap w r Hd) as Hr.
    simpl forEach_subscriptions. unfold bind at 1, get_bucket.
    assert (Hin : existsb (Nat.eqb s) (b_subscriptions (bucket_of w r)) = true).
    { apply existsb_eqb_In. change (In s (subs_of w r)). rewrite Hs.
      apply in_or_app; simpl; auto. }
    rewrite Hin. unfold bind at 1. rewrite notify_eq.
    destruct (s_once (sub_of w s)) eqn:Honce; cbv iota.
    + rewrite remove_eq by (rewrite bucket_of_with_log; assumption).
      rewrite subs_of_with_log, bucket_of_with_log, Hs.
      rewrite set_delete_middle by (exact Hnd).
      assert (Hfs : filter (not_once w) (s :: l) = filter (not_once w) l)
        by (simpl; unfold not_once at 1; rewrite Honce; reflexivity).
      rewrite Hfs.
      destruct (K ++ l) as [|x l'] eqn:HKl.
      * apply app_eq_nil in HKl as [-> ->]. simpl.
        rewrite app_nil_r, <- app_assoc. reflexivity.
      * assert (HKl' : K ++ l <> []) by (rewrite HKl; discriminate).
        rewrite <- HKl.
        set (w2 := with_heap (with_log w (w_log w ++ report w s))
                     (replace_nth r (set_subscriptions (K ++ l) (bucket_of w r))
                        (w_heap (with_log w (w_log w ++ report w s))))).
        assert (Hb2 : bucket_of w2 r = set_subscriptions (K ++ l) (bucket_of w r)).
        { unfold w2. rewrite bucket_of_with_heap_replace by exact Hr.
          rewrite Nat.eqb_refl; reflexivity. }
        destruct (report_same_subs w w2 eq_refl) as [Hrep Hno].
        rewrite (IH K w2).
        2: { unfold subs_of; rewrite Hb2; reflexivity. }
        2: { apply NoDup_remove_1 with s; exact Hnd. }
        2: { intros _; rewrite Hb2; split; assumption. }
        rewrite Hb2, Hrep, Hno.
        rewrite (emptied_cons s l (K ++ filter (not_once w) l)).
        2: { destruct l; [left; rewrite app_nil_r in HKl' |- *; exact HKl' | right; discriminate]. }
        unfold w2; simpl.
        destruct (emptied l (K ++ filter (not_once w) l)); simpl;
          rewrite replace_nth_twice, <- !app_assoc; reflexivity.
    + set (w1 := with_log w (w_log w ++ report w s)).
      destruct (report_same_subs w w1 eq_refl) as [Hrep Hno].
      rewrite (IH (K ++ [s]) w1).
      2: { unfold w1; rewrite subs_of_with_log, Hs, <- app_assoc; reflexivity. }
      2: { rewrite <- app_assoc; exact Hnd. }
      2: { intros _; unfold w1; rewrite bucket_of_with_log; split; assumption. }
      rewrite Hrep, Hno. unfold w1; rewrite bucket_of_with_log.
      assert (Hfs : filter (not_once w) (s :: l) = s :: filter (not_once w) l)
        by (simpl; unfold not_once at 1; rewrite Honce; reflexivity).
      rewrite Hfs.
      replace (emptied l ((K ++ [s]) ++ filter (not_once w) l)) with false
        by (rewrite <- app_assoc; destruct l; [reflexivity|]; destruct K; reflexivity).
      replace (emptied (s :: l) (K ++ s :: filter (not_once w) l)) with false
        by (destruct K; reflexivity).
      cbn [w_heap w_buckets w_timers w_subs w_log with_log].
      rewrite <- !app_assoc. reflexivity.
Qed.

Lemma handleIntervalTick_eq (w : world) (r : nat) :
  NoDup (subs_of w r) ->
  (subs_of w r <> [] -> b_disposed (bucket_of w r) = false /\ b_onEmpty (bucket_of w r) = true) ->
  handleIntervalTick r w =
  (Ok tt,
   let b := bucket_of w r in
   let l := subs_of w r in
   let K' := filter (not_once w) l in
   if emptied l K'
   then mkWorld (replace_nth r (disposed_bucket b) (w_heap w))
          (map_remove (b_delay b) (w_buckets w))
          (if truthy (b_intervalId b)
           then interval_clear (w_timers w) (b_intervalId b) else w_timers w)
          (w_subs w) (w_log w ++ flat_map (report w) l ++ [EvOnEmpty r])
   else mkWorld (replace_nth r (set_subscriptions K' b) (w_heap w)) (w_buckets w)
          (w_timers w) (w_subs w) (w_log w ++ flat_map (report w) l)).
Proof.
  intros Hnd Hlive. unfold handleIntervalTick, bind at 1, get_bucket.
  apply (forEach_eq r (subs_of w r) [] w); auto.
Qed.

(** ** Invariants of the reachable pools *)

Lemma calls_app (a b : list event) : calls (a ++ b) = calls a ++ calls b.
Proof. induction a as [|[] a IH]; simpl; rewrite ?IH; reflexivity. Qed.

Lemma calls_report (w : world) (l : list nat) : calls (flat_map (report w) l) = l.
Proof.
  induction l as [|s l IH]; [reflexivity|].
  cbn [flat_map]; rewrite calls_app, IH.
  unfold report; destruct (cb_throws _); reflexivity.
Qed.

Lemma sorted_NoDup (l : list nat) : StronglySorted lt l -> NoDup l.
Proof.
  induction 1 as [|a l _ IH Hall]; constructor; auto.
  intros Hin. rewrite Forall_forall in Hall. specialize (Hall a Hin); lia.
Qed.

Lemma sorted_filter (f : nat -> bool) (l : list nat) :
  StronglySorted lt l -> StronglySorted lt (filter f l).
Proof.
  induction 1 as [|a l _ IH Hall]; simpl; [constructor|].
  destruct (f a); auto. constructor; auto.
  rewrite Forall_forall in *; intros x Hx; apply filter_In in Hx; apply Hall; tauto.
Qed.

Lemma sorted_app_last (l : list nat) (s : nat) :
  StronglySorted lt l -> (forall x, In x l -> x < s) -> StronglySorted lt (l ++ [s]).
Proof.
  induction 1 as [|a l _ IH Hall]; intros Hlt; simpl.
  - repeat constructor.
  - constructor.
    + apply IH; intros x Hx; apply Hlt; simpl; auto.
    + apply Forall_app; split; auto. constructor; [apply Hlt; simpl; auto | constructor].
Qed.

Lemma nth_replace_cases (w : world) (r r' : nat) (B : bucket) (h : list bucket) :
  h = w_heap w -> r < length h ->
  nth r' (replace_nth r B h) dead_bucket = if Nat.eqb r' r then B else bucket_of w r'.
Proof. intros -> H; apply nth_replace_nth; exact H. Qed.

(** Replacing one bucket by one with fewer members keeps [heap_inv], as
    long as no callback call is logged. *)
Lemma heap_inv_shrink (w : world) (r : nat) (B : bucket) m f ev :
  heap_inv w -> r < length (w_heap w) ->
  incl (b_subscriptions B) (subs_of w r) -> StronglySorted lt (b_subscriptions B) ->
  (b_disposed B = true -> b_subscriptions B = []) ->
  (b_disposed B = false -> b_onEmpty B = true) ->
  calls ev = [] ->
  heap_inv (mkWorld (replace_nth r B (w_heap w)) m f (w_subs w) (w_log w ++ ev)).
Proof.
  intros [Hd Ho Hnd Hu Hsb Hcb Honce] Hr Hincl HndB HdB HoB Hev.
  set (w' := mkWorld (replace_nth r B (w_heap w)) m f (w_subs w) (w_log w ++ ev)).
  assert (Hb : forall r', bucket_of w' r' = if Nat.eqb r' r then B else bucket_of w r').
  { intros r'; unfold bucket_of at 1; simpl; apply nth_replace_nth; exact Hr. }
  assert (Hs : forall r', incl (subs_of w' r') (subs_of w r')).
  { intros r'; unfold subs_of at 1; rewrite Hb.
    destruct (Nat.eqb_spec r' r); [subst; exact Hincl | apply incl_refl]. }
  assert (Hl : calls (w_log w') = calls (w_log w)).
  { simpl; rewrite calls_app, Hev, app_nil_r; reflexivity. }
  assert (Hsub : w_subs w' = w_subs w) by reflexivity.
  assert (Hso : forall s, sub_of w' s = sub_of w s) by reflexivity.
  split; rewrite ?Hl, ?Hsub; intros *; rewrite ?Hso.
  - unfold subs_of; rewrite Hb; destruct (Nat.eqb_spec r0 r); auto; apply Hd.
  - rewrite Hb; destruct (Nat.eqb_spec r0 r); auto.
  - unfold subs_of; rewrite Hb; destruct (Nat.eqb_spec r0 r); auto; apply Hnd.
  - intros H1 H2. apply Hs in H1, H2. eauto.
  - intros H1; apply Hs in H1; eauto.
  - auto.
  - intros H1 H2. destruct (Honce s H1 H2) as [Hc Hn]; split; auto.
    intros r' H'. apply Hs in H'. eapply Hn; eauto.
Qed.

Lemma dispose_disposed (w : world) (r : nat) :
  b_disposed (bucket_of w r) = true -> dispose r w = (Ok tt, w).
Proof. intros H. unfold dispose, bind, get_bucket. rewrite H. reflexivity. Qed.

Lemma dispose_inv (w : world) (r : nat) :
  heap_inv w ->
  dispose r w = (Ok tt, exec (dispose r) w) /\ heap_inv (exec (dispose r) w).
Proof.
  intros H. unfold exec.
  destruct (b_disposed (bucket_of w r)) eqn:Hd.
  - rewrite dispose_disposed by exact Hd. auto.
  - rewrite dispose_eq by exact Hd. split; [reflexivity|]. simpl.
    pose proof (heap_inv_shrink w r (disposed_bucket (bucket_of w r)) (w_buckets w)
      (if truthy (b_intervalId (bucket_of w r))
       then interval_clear (w_timers w) (b_intervalId (bucket_of w r)) else w_timers w)
      [] H (live_bucket_in_heap w r Hd)) as Hs.
    rewrite app_nil_r in Hs. apply Hs; simpl; try solve [constructor | discriminate | reflexivity].
    intros x [].
Qed.

Lemma dispose_all_inv (l : list nat) (w : world) :
  heap_inv w ->
  dispose_all l w = (Ok tt, exec (dispose_all l) w) /\ heap_inv (exec (dispose_all l) w).
Proof.
  revert w; induction l as [|r l IH]; intros w H; [split; [reflexivity | exact H]|].
  destruct (dispose_inv w r H) as [He Hi].
  assert (Hs : dispose_all (r :: l) w = dispose_all l (exec (dispose r) w)).
  { cbn [dispose_all]; unfold bind at 1; rewrite He; reflexivity. }
  unfold exec at 1 2; rewrite Hs. apply IH; exact Hi.
Qed.

Lemma clear_eq (w : world) :
  heap_inv w ->
  clear w = (Ok tt, with_buckets (exec (dispose_all (map snd (w_buckets w))) w) []).
Proof.
  intros H. destruct (dispose_all_inv (map snd (w_buckets w)) w H) as [He _].
  unfold clear, bind at 1, get_world. unfold bind at 1. rewrite He. reflexivity.
Qed.



Lemma bucket_of_mk (w : world) (r r' : nat) (B : bucket) m f ss lg :
  r < length (w_heap w) ->
  bucket_of (mkWorld (replace_nth r B (w_heap w)) m f ss lg) r' =
  if Nat.eqb r' r then B else bucket_of w r'.
Proof. intros H; unfold bucket_of; simpl; apply nth_replace_nth; exact H. Qed.

Lemma map_remove_keys (d : Z) (m : list (Z * nat)) :
  NoDup (map fst m) -> NoDup (map fst (map_remove d m)).
Proof.
  induction m as [|[k v] m IH]; simpl; intros H; [constructor|].
  inversion H as [|? ? Hn Hd]; subst.
  destruct (negb (Z.eqb k d)); simpl; auto.
  constructor; auto. intros Hin; apply Hn.
  apply in_map_iff in Hin as [[k' v'] [Hk Hin]]; simpl in Hk; subst.
  unfold map_remove in Hin; apply filter_In in Hin as [Hin _].
  apply in_map_iff; eexists; split; [|exact Hin]; reflexivity.
Qed.

(** Replacing bucket [r] and shrinking the map keeps [map_inv]. *)
Lemma map_inv_update (w : world) (r : nat) (B : bucket) m' f ss lg :
  map_inv w -> r < length (w_heap w) ->
  (forall d r', map_lookup d m' = Some r' -> map_lookup d (w_buckets w) = Some r') ->
  (forall d, map_lookup d m' = Some r ->
     b_disposed B = false /\ b_subscriptions B <> [] /\ b_delay B = d) ->
  (forall d r', r' <> r -> map_lookup d (w_buckets w) = Some r' -> map_lookup d m' = Some r') ->
  (b_subscriptions B <> [] -> map_lookup (b_delay B) m' = Some r) ->
  NoDup (map fst m') ->
  map_inv (mkWorld (replace_nth r B (w_heap w)) m' f ss lg).
Proof.
  intros [Hm Hl Hk] Hr Hsub Hr' Hkeep HB Hnd. split; [| |exact Hnd]; simpl.
  - intros d r' Hlk. unfold subs_of; rewrite bucket_of_mk by exact Hr.
    destruct (Nat.eqb_spec r' r) as [->|]; [apply Hr'; exact Hlk|].
    apply Hm, Hsub, Hlk.
  - intros r'. unfold subs_of; rewrite bucket_of_mk by exact Hr.
    destruct (Nat.eqb_spec r' r) as [->|Hne]; [exact HB|].
    intros H; apply Hkeep; [exact Hne | apply Hl, H].
Qed.

(** The effect of a tick on [heap_inv]: the calls logged are the members,
    and the bucket keeps the members that are not [once]. *)
Lemma heap_inv_tick (w : world) (r : nat) (B : bucket) m f ev :
  heap_inv w -> r < length (w_heap w) ->
  b_subscriptions B = filter (not_once w) (subs_of w r) ->
  (b_disposed B = true -> b_subscriptions B = []) ->
  (b_disposed B = false -> b_onEmpty B = true) ->
  calls ev = subs_of w r ->
  heap_inv (mkWorld (replace_nth r B (w_heap w)) m f (w_subs w) (w_log w ++ ev)).
Proof.
  intros [Hd Ho Hso Hu Hsb Hcb Honce] Hr HB HdB HoB Hev.
  set (w' := mkWorld (replace_nth r B (w_heap w)) m f (w_subs w) (w_log w ++ ev)).
  assert (Hb : forall r', bucket_of w' r' = if Nat.eqb r' r then B else bucket_of w r').
  { intros r'; apply bucket_of_mk; exact Hr. }
  assert (Hs : forall r', incl (subs_of w' r') (subs_of w r')).
  { intros r'; unfold subs_of at 1; rewrite Hb.
    destruct (Nat.eqb_spec r' r); [subst; rewrite HB; intros x Hx; apply filter_In in Hx; tauto
                                  | apply incl_refl]. }
  assert (Hl : calls (w_log w') = calls (w_log w) ++ subs_of w r).
  { simpl; rewrite calls_app, Hev; reflexivity. }
  assert (Hsub : w_subs w' = w_subs w) by reflexivity.
  assert (Hso' : forall s, sub_of w' s = sub_of w s) by reflexivity.
  split; rewrite ?Hl, ?Hsub; intros *; rewrite ?Hso'.
  - unfold subs_of; rewrite Hb; destruct (Nat.eqb_spec r0 r); auto; apply Hd.
  - rewrite Hb; destruct (Nat.eqb_spec r0 r); auto.
  - unfold subs_of; rewrite Hb; destruct (Nat.eqb_spec r0 r) as [->|]; [|apply Hso].
    rewrite HB; apply sorted_filter, Hso.
  - intros H1 H2. apply Hs in H1, H2. eauto.
  - intros H1; apply Hs in H1; eauto.
  - intros H; apply in_app_or in H as [H|H]; eauto.
  - intros H1 H2. rewrite count_occ_app.
    destruct (in_dec Nat.eq_dec s (calls (w_log w))) as [Hin|Hin].
    + destruct (Honce s H1 Hin) as [Hc Hn]. split.
      * rewrite Hc, (proj1 (count_occ_not_In _ _ _)) by apply Hn; reflexivity.
      * intros r' H'; apply Hs in H'; eapply Hn; eauto.
    + apply in_app_or in H2 as [H2|H2]; [contradiction|].
      split.
      * rewrite (proj1 (count_occ_not_In _ _ _)) by exact Hin.
        rewrite (proj1 (NoDup_count_occ' Nat.eq_dec _)); auto.
        apply sorted_NoDup, Hso.
      * intros r' H'. unfold subs_of in H'; rewrite Hb in H'.
        destruct (Nat.eqb_spec r' r) as [Heq|Hne].
        -- rewrite HB in H'; apply filter_In in H' as [_ H'].
           unfold not_once in H'; rewrite H1 in H'; discriminate.
        -- apply Hne; eapply Hu; eauto.
Qed.

Lemma handleIntervalTick_nil (w : world) (r : nat) :
  subs_of w r = [] -> handleIntervalTick r w = (Ok tt, w).
Proof. intros H; unfold handleIntervalTick, bind, get_bucket; fold (subs_of w r); rewrite H; reflexivity. Qed.

Lemma filter_nil_emptied (f : nat -> bool) (l : list nat) :
  l <> [] -> emptied l (filter f l) = true -> filter f l = [].
Proof. destruct l; [congruence|]. simpl; destruct (f n), (filter f l); simpl; congruence. Qed.

Lemma tick_inv (w : world) (r : nat) :
  pool_inv w ->
  handleIntervalTick r w = (Ok tt, exec (handleIntervalTick r) w) /\
  pool_inv (exec (handleIntervalTick r) w).
Proof.
  intros [Hh Hm]. unfold exec.
  destruct (subs_of w r) as [|s0 l0] eqn:Hl.
  { rewrite handleIntervalTick_nil by exact Hl. split; [reflexivity | split; assumption]. }
  assert (Hne : subs_of w r <> []) by (rewrite Hl; discriminate).
  assert (Hdis : b_disposed (bucket_of w r) = false).
  { destruct (b_disposed _) eqn:E; auto. apply (inv_disposed w Hh) in E. contradiction. }
  assert (Hon := inv_onEmpty w Hh r Hdis).
  assert (Hr := live_bucket_in_heap w r Hdis).
  rewrite handleIntervalTick_eq; cycle 1.
  { apply sorted_NoDup, (inv_sorted w Hh). }
  { auto. }
  split; [reflexivity|]. cbv zeta.
  destruct (emptied (subs_of w r) (filter (not_once w) (subs_of w r))) eqn:He.
  - assert (Hf := filter_nil_emptied _ _ Hne He).
    split.
    + apply heap_inv_tick; auto; try discriminate.
      rewrite calls_app, calls_report; simpl; apply app_nil_r.
    + apply map_inv_update; [exact Hm | exact Hr | | | | |].
      * intros d r' H. rewrite map_lookup_remove in H. destruct (Z.eqb d _); congruence.
      * intros d H. exfalso. rewrite map_lookup_remove in H.
        destruct (Z.eqb_spec d (b_delay (bucket_of w r))) as [|Hd]; [discriminate|].
        apply (inv_map w Hm) in H as [_ [_ H]]. congruence.
      * intros d r' Hne' H. rewrite map_lookup_remove.
        destruct (Z.eqb_spec d (b_delay (bucket_of w r))) as [->|]; [|exact H].
        rewrite (inv_live w Hm r Hne) in H. congruence.
      * intros H; exfalso; apply H; reflexivity.
      * apply map_remove_keys, (inv_keys w Hm).
  - split.
    + apply heap_inv_tick; auto using calls_report.
      simpl; intros; congruence.
    + apply map_inv_update; [exact Hm | exact Hr | | | | |].
      * intros; assumption.
      * intros d H. apply (inv_map w Hm) in H as [H1 [_ H3]]. simpl. repeat split; auto.
        destruct (subs_of w r) as [|x l]; [congruence|].
        destruct (filter (not_once w) (x :: l)); simpl in He; congruence.
      * intros; assumption.
      * intros _; apply (inv_live w Hm r Hne).
      * apply (inv_keys w Hm).
Qed.

Lemma heap_inv_shrink0 (w : world) (r : nat) (B : bucket) m f :
  heap_inv w -> r < length (w_heap w) ->
  incl (b_subscriptions B) (subs_of w r) -> StronglySorted lt (b_subscriptions B) ->
  (b_disposed B = true -> b_subscriptions B = []) ->
  (b_disposed B = false -> b_onEmpty B = true) ->
  heap_inv (mkWorld (replace_nth r B (w_heap w)) m f (w_subs w) (w_log w)).
Proof.
  intros. pose proof (heap_inv_shrink w r B m f []) as Hs. rewrite app_nil_r in Hs. auto.
Qed.

Lemma incl_set_delete (s : nat) (l : list nat) : incl (set_delete s l) l.
Proof. intros x Hx; apply set_delete_In in Hx; tauto. Qed.

Lemma unsubscribe_inv (u : unsubscribe_fn) (w : world) :
  pool_inv w ->
  unsubscribe u w = (Ok tt, exec (unsubscribe u) w) /\ pool_inv (exec (unsubscribe u) w).
Proof.
  intros [Hh Hm]. unfold exec, unsubscribe, bind, map_get. cbv beta iota.
  destruct (map_lookup (u_delay u) (w_buckets w)) as [r|] eqn:Hk;
    [|split; [reflexivity | split; assumption]].
  destruct (inv_map w Hm _ _ Hk) as [Hdis [Hne Hdel]].
  assert (Hon := inv_onEmpty w Hh r Hdis).
  assert (Hr := live_bucket_in_heap w r Hdis).
  assert (Hsort := inv_sorted w Hh r).
  rewrite remove_eq by assumption. split; [reflexivity|].
  destruct (set_delete (u_sub u) (subs_of w r)) as [|x l] eqn:Hsd.
  - split.
    + apply heap_inv_shrink; simpl; auto; try solve [constructor | discriminate].
      intros y [].
    + apply map_inv_update; [exact Hm | exact Hr | | | | |].
      * intros d r' H. rewrite map_lookup_remove in H. destruct (Z.eqb d _); congruence.
      * intros d H. exfalso. rewrite map_lookup_remove in H.
        destruct (Z.eqb_spec d (b_delay (bucket_of w r))) as [|Hd]; [discriminate|].
        apply (inv_map w Hm) in H as [_ [_ H]]. congruence.
      * intros d r' Hne' H. rewrite map_lookup_remove.
        destruct (Z.eqb_spec d (b_delay (bucket_of w r))) as [->|]; [|exact H].
        rewrite (inv_live w Hm r Hne) in H. congruence.
      * intros H; exfalso; apply H; reflexivity.
      * apply map_remove_keys, (inv_keys w Hm).
  - unfold with_heap. split.
    + apply heap_inv_shrink0; simpl; auto; try discriminate.
      * rewrite <- Hsd; apply incl_set_delete.
      * rewrite <- Hsd; apply sorted_filter, Hsort.
      * congruence.
    + apply map_inv_update; [exact Hm | exact Hr | | | | |].
      * intros; assumption.
      * intros d H. apply (inv_map w Hm) in H as [H1 [_ H3]]. simpl. repeat split; auto.
        discriminate.
      * intros; assumption.
      * intros _; apply (inv_live w Hm r Hne).
      * apply (inv_keys w Hm).
Qed.

Lemma add_eq (w : world) (r s : nat) :
  b_disposed (bucket_of w r) = false ->
  add r s w =
  (Ok tt,
   let b1 := set_subscriptions (set_add s (subs_of w r)) (bucket_of w r) in
   if truthy (b_intervalId b1)
   then mkWorld (replace_nth r b1 (w_heap w)) (w_buckets w) (w_timers w) (w_subs w) (w_log w)
   else mkWorld (replace_nth r (set_intervalId (HNum (f_next (w_timers w))) b1) (w_heap w))
          (w_buckets w) (fst (interval_set (w_timers w) r (b_delay b1)))
          (w_subs w) (w_log w)).
Proof.
  intros H. pose proof (live_bucket_in_heap w r H) as Hr.
  unfold add, bind, get_bucket, modify_bucket; rewrite H.
  unfold tryStart, bind, get_bucket, with_heap, subs_of, bucket_of in *; simpl.
  rewrite nth_replace_same by exact Hr.
  unfold set_subscriptions, set_intervalId; simpl.
  destruct (truthy (b_intervalId (nth r (w_heap w) dead_bucket))); [reflexivity|].
  unfold interval_set_M, modify_bucket, with_timers, with_heap, bucket_of; simpl.
  rewrite nth_replace_same by (rewrite ?replace_nth_length; exact Hr).
  simpl; rewrite replace_nth_twice; reflexivity.
Qed.

Lemma upsertBucket_eq (d : Z) (w : world) :
  upsertBucket d w =
  match map_lookup d (w_buckets w) with
  | Some r => (Ok r, w)
  | None => (Ok (length (w_heap w)),
             mkWorld (w_heap w ++ [new_bucket d]) (w_buckets w ++ [(d, length (w_heap w))])
               (w_timers w) (w_subs w) (w_log w))
  end.
Proof.
  unfold upsertBucket, bind, map_get. destruct (map_lookup d (w_buckets w)) eqn:Hk; [reflexivity|].
  unfold alloc_bucket, map_set, map_insert, ret; simpl. rewrite Hk. reflexivity.
Qed.

Lemma nth_app_last {A} (n : nat) (l : list A) (x d : A) :
  nth n (l ++ [x]) d = if Nat.eqb n (length l) then x else nth n l d.
Proof.
  destruct (Nat.eqb_spec n (length l)) as [->|Hn].
  - rewrite nth_middle; reflexivity.
  - destruct (Nat.lt_ge_cases n (length l)).
    + apply app_nth1; exact H.
    + rewrite !nth_overflow; auto. rewrite length_app; simpl; lia.
Qed.

Lemma heap_inv_alloc_sub (w : world) (sub : subscription) :
  heap_inv w -> heap_inv (with_subs w (w_subs w ++ [sub])).
Proof.
  intros [Hd Ho Hso Hu Hsb Hcb Honce].
  assert (Hl : length (w_subs w ++ [sub]) = S (length (w_subs w))).
  { rewrite length_app; simpl; lia. }
  split; unfold subs_of, bucket_of, sub_of in *; simpl; rewrite ?Hl; auto.
  - intros r s H; apply Hsb in H; lia.
  - intros s H; apply Hcb in H; lia.
  - intros s H1 H2. assert (Hlt := Hcb s H2). rewrite nth_app_last in H1.
    destruct (Nat.eqb_spec s (length (w_subs w))); [lia|]. auto.
Qed.

Lemma heap_inv_alloc_bucket (w : world) (d : Z) m :
  heap_inv w ->
  heap_inv (mkWorld (w_heap w ++ [new_bucket d]) m (w_timers w) (w_subs w) (w_log w)).
Proof.
  intros [Hd Ho Hso Hu Hsb Hcb Honce].
  assert (Hb : forall r, bucket_of (mkWorld (w_heap w ++ [new_bucket d]) m (w_timers w) (w_subs w) (w_log w)) r =
                         if Nat.eqb r (length (w_heap w)) then new_bucket d else bucket_of w r)
    by (intros; apply nth_app_last).
  split; intros *; unfold subs_of; simpl; rewrite ?Hb; auto.
  - destruct (Nat.eqb _ _); [discriminate | apply Hd].
  - destruct (Nat.eqb _ _); [reflexivity | apply Ho].
  - destruct (Nat.eqb _ _); [constructor | apply Hso].
  - destruct (Nat.eqb _ _), (Nat.eqb _ _); simpl; try tauto; eauto.
  - destruct (Nat.eqb _ _); simpl; [tauto | eauto].
  - intros H1 H2; destruct (Honce s H1 H2) as [Hc Hn]; split; auto.
    intros r; rewrite Hb; destruct (Nat.eqb _ _); simpl; auto. apply Hn.
Qed.

Lemma set_add_fresh (s : nat) (l : list nat) : ~ In s l -> set_add s l = l ++ [s].
Proof.
  intros H; unfold set_add.
  destruct (existsb (Nat.eqb s) l) eqn:E; [apply existsb_eqb_In in E; contradiction | reflexivity].
Qed.

(** [add] of a ref newer than every member of every set, to a live bucket. *)
Lemma add_fresh (w : world) (r s : nat) :
  heap_inv w -> b_disposed (bucket_of w r) = false ->
  (forall r' x, In x (subs_of w r') -> x < s) -> ~ In s (calls (w_log w)) ->
  s < length (w_subs w) ->
  exists B f,
    add r s w = (Ok tt, mkWorld (replace_nth r B (w_heap w)) (w_buckets w) f (w_subs w) (w_log w)) /\
    b_subscriptions B = subs_of w r ++ [s] /\ b_disposed B = false /\
    b_onEmpty B = b_onEmpty (bucket_of w r) /\ b_delay B = b_delay (bucket_of w r) /\
    heap_inv (mkWorld (replace_nth r B (w_heap w)) (w_buckets w) f (w_subs w) (w_log w)).
Proof.
  intros Hh Hdis Hfresh Hcalls Hs.
  assert (Hr := live_bucket_in_heap w r Hdis).
  assert (Hnin : ~ In s (subs_of w r)) by (intros H; apply Hfresh in H; lia).
  rewrite add_eq by exact Hdis. rewrite set_add_fresh by exact Hnin.
  set (b1 := set_subscriptions (subs_of w r ++ [s]) (bucket_of w r)).
  assert (Hinv : forall B f, b_subscriptions B = subs_of w r ++ [s] -> b_disposed B = false ->
            b_onEmpty B = b_onEmpty (bucket_of w r) ->
            heap_inv (mkWorld (replace_nth r B (w_heap w)) (w_buckets w) f (w_subs w) (w_log w))).
  { intros B f HB HdB HoB. destruct Hh as [Hd Ho Hso Hu Hsb Hcb Honce].
    assert (Hb : forall r', bucket_of (mkWorld (replace_nth r B (w_heap w)) (w_buckets w) f (w_subs w) (w_log w)) r'
                   = if Nat.eqb r' r then B else bucket_of w r') by (intros; apply bucket_of_mk; exact Hr).
    split; unfold subs_of in *; simpl; intros *; rewrite ?Hb.
    - destruct (Nat.eqb_spec r0 r); [congruence | apply Hd].
    - destruct (Nat.eqb_spec r0 r) as [->|]; [rewrite HoB; intros; apply Ho; exact Hdis | apply Ho].
    - destruct (Nat.eqb_spec r0 r) as [->|]; [|apply Hso].
      rewrite HB. apply sorted_app_last; [apply Hso|]. intros x Hx; eapply Hfresh; exact Hx.
    - intros H1 H2.
      destruct (Nat.eqb_spec r1 r), (Nat.eqb_spec r2 r); subst; auto.
      + rewrite HB in H1. apply in_app_or in H1 as [H1|[<-|[]]]; [eauto|].
        apply Hfresh in H2; lia.
      + rewrite HB in H2. apply in_app_or in H2 as [H2|[<-|[]]]; [eauto|].
        apply Hfresh in H1; lia.
      + eauto.
    - destruct (Nat.eqb_spec r0 r); [rewrite HB; intros H; apply in_app_or in H as [H|[<-|[]]]; eauto
                                    | eauto].
    - apply Hcb.
    - intros H1 H2. destruct (Honce s0 H1 H2) as [Hc Hn]. split; auto.
      intros r'; rewrite Hb. destruct (Nat.eqb_spec r' r) as [->|]; [|apply Hn].
      rewrite HB; intros H; apply in_app_or in H as [H|[<-|[]]]; [eapply Hn; eauto | contradiction]. }
  cbv zeta. destruct (truthy (b_intervalId b1)).
  - exists b1, (w_timers w). split; [reflexivity|].
    do 4 (split; [first [reflexivity | exact Hdis]|]).
    apply Hinv; first [reflexivity | exact Hdis].
  - eexists; eexists. split; [reflexivity|].
    do 4 (split; [first [reflexivity | exact Hdis]|]).
    apply Hinv; first [reflexivity | exact Hdis].
Qed.

Lemma subscribe_spec (d : Z) (sub : subscription) (w : world) :
  pool_inv w ->
  exists r w',
    subscribe d sub w = (Ok (mkUnsub d (length (w_subs w))), w') /\
    map_lookup d (w_buckets w') = Some r /\
    subs_of w' r = subs_at w d ++ [length (w_subs w)] /\
    (forall r', r' <> r -> bucket_of w' r' = bucket_of w r') /\
    b_delay (bucket_of w' r) = d /\
    (forall d', d' <> d -> map_lookup d' (w_buckets w') = map_lookup d' (w_buckets w)) /\
    (forall d' r', map_lookup d' (w_buckets w) = Some r' -> r' <> r -> d' <> d) /\
    w_subs w' = w_subs w ++ [sub] /\ w_log w' = w_log w /\
    pool_inv w'.
Proof.
  intros [Hh Hm].
  set (s := length (w_subs w)).
  set (w1 := with_subs w (w_subs w ++ [sub])).
  assert (Hh1 : heap_inv w1) by (apply heap_inv_alloc_sub; exact Hh).
  assert (Hfresh : forall r' x, In x (subs_of w r') -> x < s)
    by (intros r' x H; apply (inv_subs_bound w Hh) in H; exact H).
  assert (Hcalls : ~ In s (calls (w_log w)))
    by (intros H; apply (inv_calls_bound w Hh) in H; unfold s in H; lia).
  assert (Hs1 : s < length (w_subs w1)) by (simpl; rewrite length_app; simpl; unfold s; lia).
  assert (Hsub : subscribe d sub w = (r <- upsertBucket d ;; add r s ;; ret (mkUnsub d s)) w1)
    by reflexivity.
  rewrite Hsub; clear Hsub. unfold bind at 1. rewrite upsertBucket_eq.
  change (w_buckets w1) with (w_buckets w). unfold subs_at.
  destruct (map_lookup d (w_buckets w)) as [r|] eqn:Hk.
  - destruct (inv_map w Hm _ _ Hk) as [Hdis [Hne Hdel]].
    destruct (add_fresh w1 r s Hh1 Hdis Hfresh Hcalls Hs1) as [B [f [Hadd [HB [HdB [HoB [HeB Hinv]]]]]]].
    assert (Hr := live_bucket_in_heap w r Hdis).
    unfold bind; rewrite Hadd. unfold ret.
    eexists r, _. split; [reflexivity|].
    assert (Hb : forall r', bucket_of (mkWorld (replace_nth r B (w_heap w1)) (w_buckets w1) f
                              (w_subs w1) (w_log w1)) r' = if Nat.eqb r' r then B else bucket_of w r')
      by (intros; exact (bucket_of_mk w1 r r' B _ _ _ _ Hr)).
    split; [exact Hk|]. split; [unfold subs_of; rewrite Hb, Nat.eqb_refl; exact HB|].
    split; [intros r' Hr'; rewrite Hb; apply Nat.eqb_neq in Hr'; rewrite Hr'; reflexivity|].
    split; [rewrite Hb, Nat.eqb_refl, HeB; exact Hdel|].
    split; [reflexivity|].
    split; [intros d' r' H1 H2 ->; congruence|].
    split; [reflexivity|]. split; [reflexivity|].
    split; [exact Hinv|]. split; [| |apply (inv_keys w Hm)].
    + simpl; intros d' r' H. unfold subs_of; rewrite Hb.
      destruct (Nat.eqb_spec r' r) as [->|]; [|apply (inv_map w Hm _ _ H)].
      rewrite HB, HeB. repeat split; auto.
      * destruct (subs_of w1 r); discriminate.
      * apply (inv_map w Hm _ _ H).
    + intros r'. simpl. unfold subs_of; rewrite Hb.
      destruct (Nat.eqb_spec r' r) as [->|Hne'].
      * intros _. rewrite HeB. change (bucket_of w1 r) with (bucket_of w r). rewrite Hdel. exact Hk.
      * intros H; apply (inv_live w Hm r' H).
  - set (w2 := mkWorld (w_heap w1 ++ [new_bucket d]) (w_buckets w1 ++ [(d, length (w_heap w1))])
                 (w_timers w1) (w_subs w1) (w_log w1)).
    assert (Hh2 : heap_inv w2) by (apply heap_inv_alloc_bucket; exact Hh1).
    assert (Hb2 : forall r', bucket_of w2 r' =
                  if Nat.eqb r' (length (w_heap w)) then new_bucket d else bucket_of w r')
      by (intros; apply nth_app_last).
    set (r := length (w_heap w)).
    change ((add (length (w_heap w1)) s;; ret (mkUnsub d s))
              (mkWorld (w_heap w1 ++ [new_bucket d]) (w_buckets w ++ [(d, length (w_heap w1))])
                 (w_timers w1) (w_subs w1) (w_log w1)))
      with ((add r s;; ret (mkUnsub d s)) w2).
    assert (Hdis : b_disposed (bucket_of w2 r) = false) by (rewrite Hb2, Nat.eqb_refl; reflexivity).
    assert (Hfresh2 : forall r' x, In x (subs_of w2 r') -> x < s).
    { intros r' x; unfold subs_of; rewrite Hb2. destruct (Nat.eqb _ _); [intros []|apply Hfresh]. }
    destruct (add_fresh w2 r s Hh2 Hdis Hfresh2 Hcalls Hs1) as [B [f [Hadd [HB [HdB [HoB [HeB Hinv]]]]]]].
    assert (Hr : r < length (w_heap w2)) by (simpl; rewrite length_app; simpl; unfold r; lia).
    unfold bind; rewrite Hadd. unfold ret.
    eexists r, _. split; [reflexivity|].
    assert (Hb : forall r', bucket_of (mkWorld (replace_nth r B (w_heap w2)) (w_buckets w2) f
                              (w_subs w2) (w_log w2)) r' = if Nat.eqb r' r then B else bucket_of w2 r')
      by (intros; apply bucket_of_mk; exact Hr).
    assert (Hsr : subs_of w2 r = []) by (unfold subs_of; rewrite Hb2, Nat.eqb_refl; reflexivity).
    simpl w_buckets. 
    split; [rewrite map_lookup_app_new, Z.eqb_refl by exact Hk; reflexivity|].
    split; [unfold subs_of at 1; rewrite Hb, Nat.eqb_refl, HB, Hsr; reflexivity|].
    split; [intros r' Hr'; rewrite Hb, Hb2; apply Nat.eqb_neq in Hr';
            fold r; rewrite Hr'; reflexivity|].
    split; [rewrite Hb, Nat.eqb_refl, HeB, Hb2, Nat.eqb_refl; reflexivity|].
    split; [intros d' Hd'; rewrite map_lookup_app_new by exact Hk;
            apply Z.eqb_neq in Hd'; rewrite Hd'; reflexivity|].
    split; [intros d' r' H1 H2 ->; congruence|].
    split; [reflexivity|]. split; [reflexivity|].
    split; [exact Hinv|]. split; [| |].
    + simpl; intros d' r' H. rewrite map_lookup_app_new in H by exact Hk.
      unfold subs_of; rewrite Hb.
      destruct (Z.eqb_spec d' d) as [->|Hd'].
      * injection H as <-. rewrite Nat.eqb_refl, HB, HeB, Hsr, Hb2, Nat.eqb_refl.
        repeat split; auto. discriminate.
      * destruct (inv_map w Hm _ _ H) as [H1 [H2 H3]].
        assert (Hr' := live_bucket_in_heap w r' H1).
        assert (Hne : r' <> r) by (unfold r; lia).
        apply Nat.eqb_neq in Hne; rewrite Hne, Hb2; fold r; rewrite Hne. auto.
    + intros r'. simpl. unfold subs_of; rewrite Hb.
      destruct (Nat.eqb_spec r' r) as [->|Hne'].
      * intros _. rewrite HeB, Hb2, Nat.eqb_refl. simpl.
        rewrite map_lookup_app_new, Z.eqb_refl by exact Hk. reflexivity.
      * rewrite Hb2. apply Nat.eqb_neq in Hne'; fold r; rewrite Hne'. intros H.
        assert (Hl := inv_live w Hm r' H). rewrite map_lookup_app_new by exact Hk.
        destruct (Z.eqb_spec (b_delay (bucket_of w r')) d) as [He|]; [|exact Hl].
        rewrite He in Hl; congruence.
    + simpl. rewrite map_app; simpl. apply NoDup_app; [apply (inv_keys w Hm)| |].
      * repeat constructor; simpl; tauto.
      * intros x Hx [<-|[]]. apply (map_lookup_None_notin _ _ Hk); exact Hx.
Qed.

Lemma shrinks_grows (w w' : world) : shrinks w w' -> grows w w'.
Proof.
  intros [Hi [_ [Hs Hl]]]. split; [exact Hl|]. split; [exists []; rewrite app_nil_r; exact Hs|].
  intros s _ H r Hin. apply Hi in Hin. eapply H; eauto.
Qed.

Lemma shrinks_refl (w : world) : shrinks w w.
Proof.
  split; [intros; apply incl_refl|].
  split; [intros; reflexivity | split; [reflexivity | exists []; symmetry; apply app_nil_r]].
Qed.

Lemma shrinks_trans (w1 w2 w3 : world) : shrinks w1 w2 -> shrinks w2 w3 -> shrinks w1 w3.
Proof.
  intros [H1 [H0 [H2 [e1 H3]]]] [K1 [K0 [K2 [e2 K3]]]]. split; [|split; [|split]].
  - intros r; eapply incl_tran; eauto.
  - intros r; rewrite K0; apply H0.
  - congruence.
  - exists (e1 ++ e2); rewrite K3, H3, app_assoc; reflexivity.
Qed.

Lemma shrinks_replace (w : world) (r : nat) (B : bucket) m f ev :
  r < length (w_heap w) -> incl (b_subscriptions B) (subs_of w r) ->
  b_delay B = b_delay (bucket_of w r) ->
  shrinks w (mkWorld (replace_nth r B (w_heap w)) m f (w_subs w) (w_log w ++ ev)).
Proof.
  intros Hr Hi HdB. split; [|split; [|split; [reflexivity | exists ev; reflexivity]]].
  - intros r'; unfold subs_of at 1; rewrite bucket_of_mk by exact Hr.
    destruct (Nat.eqb_spec r' r) as [->|]; [exact Hi | apply incl_refl].
  - intros r'; rewrite bucket_of_mk by exact Hr.
    destruct (Nat.eqb_spec r' r) as [->|]; [exact HdB | reflexivity].
Qed.

Lemma shrinks_replace0 (w : world) (r : nat) (B : bucket) m f :
  r < length (w_heap w) -> incl (b_subscriptions B) (subs_of w r) ->
  b_delay B = b_delay (bucket_of w r) ->
  shrinks w (mkWorld (replace_nth r B (w_heap w)) m f (w_subs w) (w_log w)).
Proof.
  intros. pose proof (shrinks_replace w r B m f [] H H0 H1) as Hs.
  rewrite app_nil_r in Hs; exact Hs.
Qed.

Lemma tick_shrinks (w : world) (r : nat) :
  pool_inv w -> shrinks w (exec (handleIntervalTick r) w).
Proof.
  intros [Hh Hm]. unfold exec.
  destruct (subs_of w r) as [|s0 l0] eqn:Hl.
  { rewrite handleIntervalTick_nil by exact Hl. apply shrinks_refl. }
  assert (Hne : subs_of w r <> []) by (rewrite Hl; discriminate).
  assert (Hdis : b_disposed (bucket_of w r) = false).
  { destruct (b_disposed _) eqn:E; auto. apply (inv_disposed w Hh) in E. contradiction. }
  assert (Hon := inv_onEmpty w Hh r Hdis).
  assert (Hr := live_bucket_in_heap w r Hdis).
  rewrite handleIntervalTick_eq; cycle 1.
  { apply sorted_NoDup, (inv_sorted w Hh). }
  { auto. }
  cbv zeta; simpl snd.
  destruct (emptied _ _); apply shrinks_replace; auto; intros x Hx; simpl in Hx;
    [contradiction | apply filter_In in Hx; tauto].
Qed.

Lemma unsubscribe_shrinks (u : unsubscribe_fn) (w : world) :
  pool_inv w -> shrinks w (exec (unsubscribe u) w).
Proof.
  intros [Hh Hm]. unfold exec, unsubscribe, bind, map_get. cbv beta iota.
  destruct (map_lookup (u_delay u) (w_buckets w)) as [r|] eqn:Hk; [|apply shrinks_refl].
  destruct (inv_map w Hm _ _ Hk) as [Hdis [Hne Hdel]].
  assert (Hon := inv_onEmpty w Hh r Hdis).
  assert (Hr := live_bucket_in_heap w r Hdis).
  rewrite remove_eq by assumption. simpl snd.
  destruct (set_delete (u_sub u) (subs_of w r)) as [|x l] eqn:Hsd.
  - apply shrinks_replace; auto. intros y [].
  - apply shrinks_replace0; auto. simpl; rewrite <- Hsd; apply incl_set_delete.
Qed.

Lemma dispose_shrinks (w : world) (r : nat) : shrinks w (exec (dispose r) w).
Proof.
  unfold exec. destruct (b_disposed (bucket_of w r)) eqn:Hd.
  - rewrite dispose_disposed by exact Hd. apply shrinks_refl.
  - rewrite dispose_eq by exact Hd. apply shrinks_replace0.
    + apply live_bucket_in_heap, Hd.
    + intros y [].
    + reflexivity.
Qed.

Lemma dispose_all_shrinks (l : list nat) (w : world) :
  heap_inv w -> shrinks w (exec (dispose_all l) w).
Proof.
  revert w; induction l as [|r l IH]; intros w H; [apply shrinks_refl|].
  destruct (dispose_inv w r H) as [He Hi].
  assert (Hs : dispose_all (r :: l) w = dispose_all l (exec (dispose r) w)).
  { cbn [dispose_all]; unfold bind at 1; rewrite He; reflexivity. }
  unfold exec at 1; rewrite Hs. eapply shrinks_trans; [apply dispose_shrinks | apply IH, Hi].
Qed.

Lemma clear_shrinks (w : world) : pool_inv w -> shrinks w (exec clear w).
Proof.
  intros [Hh _]. unfold exec at 1; rewrite clear_eq by exact Hh.
  exact (dispose_all_shrinks _ w Hh).
Qed.

Lemma dispose_empties (w : world) (r : nat) :
  heap_inv w -> subs_of (exec (dispose r) w) r = [].
Proof.
  intros H. unfold exec. destruct (b_disposed (bucket_of w r)) eqn:Hd.
  - rewrite dispose_disposed by exact Hd. apply (inv_disposed w H), Hd.
  - rewrite dispose_eq by exact Hd. unfold subs_of; simpl.
    rewrite bucket_of_mk, Nat.eqb_refl by apply live_bucket_in_heap, Hd. reflexivity.
Qed.

Lemma dispose_all_empties (l : list nat) (w : world) (r : nat) :
  heap_inv w -> In r l -> subs_of (exec (dispose_all l) w) r = [].
Proof.
  revert w; induction l as [|a l IH]; intros w H Hin; [destruct Hin|].
  destruct (dispose_inv w a H) as [He Hi].
  assert (Hs : dispose_all (a :: l) w = dispose_all l (exec (dispose a) w)).
  { cbn [dispose_all]; unfold bind at 1; rewrite He; reflexivity. }
  unfold exec at 1; rewrite Hs.
  destruct (in_dec Nat.eq_dec r l) as [Hl|Hl]; [apply IH; auto|].
  destruct Hin as [Heq|]; [subst a|contradiction].
  destruct (dispose_all_shrinks l (exec (dispose r) w) Hi) as [Hinc _].
  specialize (Hinc r). rewrite dispose_empties in Hinc by exact H.
  apply incl_l_nil, Hinc.
Qed.

Lemma clear_inv (w : world) : pool_inv w -> pool_inv (exec clear w).
Proof.
  intros [H Hm]. unfold exec; rewrite clear_eq by exact H.
  destruct (dispose_all_inv (map snd (w_buckets w)) w H) as [_ Hi].
  assert (Hempty : forall r, subs_of (exec (dispose_all (map snd (w_buckets w))) w) r = []).
  { intros r. destruct (subs_of w r) as [|x l] eqn:Hr.
    - destruct (dispose_all_shrinks (map snd (w_buckets w)) w H) as [Hinc _].
      specialize (Hinc r); rewrite Hr in Hinc. apply incl_l_nil, Hinc.
    - apply dispose_all_empties; [exact H|].
      assert (Hl := inv_live w Hm r ltac:(rewrite Hr; discriminate)).
      apply map_lookup_In in Hl. apply in_map_iff; eexists; split; [|exact Hl]; reflexivity. }
  split; [|split; simpl; [discriminate | | constructor]].
  - destruct Hi; split; auto.
  - intros r Hr. exfalso; apply Hr, Hempty.
Qed.

(** ** Reachable worlds satisfy the invariants *)

Lemma step_inv (w w' : world) : pool_inv w -> pool_step w w' -> pool_inv w'.
Proof.
  intros H Hs; destruct Hs.
  - destruct (subscribe_spec d (mkSub cb false) w H) as (r & w' & He & _ & _ & _ & _ & _ & _ & _ & _ & Hi).
    unfold run; rewrite He; exact Hi.
  - destruct (subscribe_spec d (mkSub cb true) w H) as (r & w' & He & _ & _ & _ & _ & _ & _ & _ & _ & Hi).
    unfold once; rewrite He; exact Hi.
  - apply unsubscribe_inv, H.
  - apply clear_inv, H.
  - apply tick_inv, H.
Qed.


Lemma steps_inv (w w' : world) : pool_inv w -> steps w w' -> pool_inv w'.
Proof. intros H Hs; induction Hs; eauto using step_inv. Qed.

Lemma subscribe_grows (d : Z) (sub : subscription) (w : world) :
  pool_inv w -> grows w (exec (subscribe d sub) w).
Proof.
  intros H. destruct (subscribe_spec d sub w H)
    as (r & w' & He & Hk & Hsr & Hso & _ & _ & _ & Hsubs & Hlog & _).
  unfold exec; rewrite He; simpl snd.
  split; [exists []; rewrite app_nil_r; exact Hlog|].
  split; [eexists; exact Hsubs|].
  intros s Hs Hgone r'. destruct (Nat.eq_dec r' r) as [->|Hne].
  - rewrite Hsr. unfold subs_at. intros Hin; apply in_app_or in Hin as [Hin|[Heq|[]]]; [|lia].
    destruct (map_lookup d (w_buckets w)); [eapply Hgone; eauto | contradiction].
  - unfold subs_of at 1; rewrite Hso by exact Hne. apply Hgone.
Qed.

Lemma grows_trans (w1 w2 w3 : world) : grows w1 w2 -> grows w2 w3 -> grows w1 w3.
Proof.
  intros [[e1 H1] [[s1 H2] H3]] [[e2 K1] [[s2 K2] K3]]. split; [|split].
  - exists (e1 ++ e2); rewrite K1, H1, app_assoc; reflexivity.
  - exists (s1 ++ s2); rewrite K2, H2, app_assoc; reflexivity.
  - intros s Hs Hg. apply K3; [rewrite H2, length_app; lia | apply H3; auto].
Qed.

Lemma step_grows (w w' : world) : pool_inv w -> pool_step w w' -> grows w w'.
Proof.
  intros H Hs; destruct Hs.
  - apply subscribe_grows, H.
  - apply subscribe_grows, H.
  - apply shrinks_grows, unsubscribe_shrinks, H.
  - apply shrinks_grows, clear_shrinks, H.
  - apply shrinks_grows, tick_shrinks, H.
Qed.

Lemma steps_grows (w w' : world) : pool_inv w -> steps w w' -> grows w w'.
Proof.
  intros H Hs; induction Hs as [w|w w1 w2 Hst Hs IH].
  - apply shrinks_grows, shrinks_refl.
  - eapply grows_trans; [eapply step_grows; eauto | apply IH; eapply step_inv; eauto].
Qed.

(** ** What a tick logs *)

Lemma tick_log (w : world) (r : nat) :
  pool_inv w ->
  exists tail,
    handleIntervalTick r w = (Ok tt, exec (handleIntervalTick r) w) /\
    w_log (exec (handleIntervalTick r) w) = w_log w ++ flat_map (report w) (subs_of w r) ++ tail /\
    (tail = [] \/ tail = [EvOnEmpty r]) /\
    w_subs (exec (handleIntervalTick r) w) = w_subs w.
Proof.
  intros [Hh Hm]. unfold exec.
  destruct (subs_of w r) as [|s0 l0] eqn:Hl.
  { rewrite handleIntervalTick_nil by exact Hl. exists []; simpl.
    rewrite app_nil_r. auto. }
  assert (Hne : subs_of w r <> []) by (rewrite Hl; discriminate).
  assert (Hdis : b_disposed (bucket_of w r) = false).
  { destruct (b_disposed _) eqn:E; auto. apply (inv_disposed w Hh) in E. contradiction. }
  assert (Hon := inv_onEmpty w Hh r Hdis).
  rewrite <- Hl. rewrite handleIntervalTick_eq; cycle 1.
  { apply sorted_NoDup, (inv_sorted w Hh). }
  { auto. }
  cbv zeta. destruct (emptied _ _).
  - exists [EvOnEmpty r]; simpl; auto.
  - exists []; simpl; rewrite app_nil_r; auto.
Qed.

Lemma tick_calls (w : world) (r : nat) :
  pool_inv w ->
  calls (w_log (exec (handleIntervalTick r) w)) = calls (w_log w) ++ subs_of w r.
Proof.
  intros H. destruct (tick_log w r H) as (tail & _ & Hl & Ht & _).
  rewrite Hl, !calls_app, calls_report.
  destruct Ht as [->| ->]; simpl; rewrite app_nil_r; reflexivity.
Qed.

(** ** Unsubscribing *)

Lemma not_in_subs_at (w : world) (s : nat) :
  (forall r, ~ In s (subs_of w r)) -> forall d, ~ In s (subs_at w d).
Proof. intros H d; unfold subs_at; destruct (map_lookup d (w_buckets w)); [apply H | intros []]. Qed.









(** ** Order of the calls *)

Lemma sorted_split (l : list nat) (s1 s2 : nat) :
  StronglySorted lt l -> In s1 l -> In s2 l -> s1 < s2 ->
  exists l1 l2 l3, l = l1 ++ s1 :: l2 ++ s2 :: l3.
Proof.
  induction 1 as [|a l Hs IH Hall]; intros H1 H2 Hlt; [destruct H1|].
  rewrite Forall_forall in Hall.
  destruct H1 as [<-|H1].
  - destruct H2 as [->|H2]; [lia|].
    apply in_split in H2 as (x & y & ->). exists [], x, y; reflexivity.
  - destruct H2 as [<-|H2]; [specialize (Hall s1 H1); lia|].
    destruct (IH H1 H2 Hlt) as (l1 & l2 & l3 & ->). exists (a :: l1), l2, l3; reflexivity.
Qed.

(** ** Sessions of [iterate] *)

Lemma ticks_waiting (k : nat) (st : session) :
  it_subscribed st = true -> it_resolve st = false ->
  ticks k st = with_lostTicks st (k + it_lostTicks st).
Proof.
  revert st; induction k as [|k IH]; intros st Hs Hr.
  - destruct st; reflexivity.
  - simpl. unfold tick; rewrite Hs; simpl; rewrite Hr.
    cbn [fst]. rewrite IH by (simpl; assumption). unfold with_lostTicks; simpl; f_equal; lia.
Qed.

Lemma pulls_pending (k : nat) (st : session) :
  it_pc st = GenYield -> it_stopped st = false -> it_lostTicks st = S k ->
  pulls (S k) st =
  (repeat Resolved k ++ [Suspended],
   mkSession GenAwait true false 0 (it_subscribed st)).
Proof.
  revert st; induction k as [|k IH]; intros st Hpc Hst Hl.
  - simpl. unfold pull; rewrite Hpc. unfold inner_loop, loop_head, with_lostTicks; simpl.
    rewrite Hl, Hst. reflexivity.
  - assert (Hp : pull st = (with_pc (with_lostTicks st (S k)) GenYield, Resolved)).
    { unfold pull; rewrite Hpc. unfold inner_loop; simpl. rewrite Hl; simpl.
      rewrite ?Nat.sub_0_r. reflexivity. }
    change (pulls (S (S k)) st) with
      (let '(st1, r) := pull st in let '(rs, st2) := pulls (S k) st1 in (r :: rs, st2)).
    rewrite Hp. cbv beta iota. rewrite IH; [reflexivity | reflexivity | exact Hst | reflexivity].
Qed.

(** ** Capabilities and [once] subscriptions across later steps *)


(** A [once] subscription whose callback has been called stays called once
    and out of every set. *)
Lemma once_gone_after (w1 : world) (s : nat) :
  pool_inv w1 -> s < length (w_subs w1) -> s_once (sub_of w1 s) = true ->
  In s (calls (w_log w1)) ->
  forall w2, steps w1 w2 ->
  count_occ Nat.eq_dec (calls (w_log w2)) s = 1 /\ forall d, ~ In s (subs_at w2 d).
Proof.
  intros H Hlt Ho Hc w2 Hs.
  assert (H2 := steps_inv w1 w2 H Hs).
  destruct (steps_grows w1 w2 H Hs) as [[ev Hl] [[ss Hss] _]].
  assert (Hsub : sub_of w2 s = sub_of w1 s)
    by (unfold sub_of; rewrite Hss; apply app_nth1; exact Hlt).
  assert (Hc2 : In s (calls (w_log w2)))
    by (rewrite Hl, calls_app; apply in_or_app; left; exact Hc).
  rewrite <- Hsub in Ho. destruct (inv_once w2 (proj1 H2) s Ho Hc2) as [Hn Hg].
  split; [exact Hn | apply not_in_subs_at, Hg].
Qed.

(** ** The claims *)

(** C1 (as the code behaves with a facility whose first id is 0): two
    [run] calls at the same period leave the facility with two live timers
    for it, while [getActiveIntervalCount()] is 1. [#tryStart] tests
    [if (this.#intervalId)], and the handle 0 is falsy, so the second [add]
    schedules a second timer. *)
Theorem zero_handle_duplicate_timer :
  reachable (ex_two 0) /\
  getSubscriptionCount 1000 (ex_two 0) = 2 /\
  getActiveIntervalCount (ex_two 0) = 1 /\
  live_timers_for 1000 (ex_two 0) = 2.
Proof.
  split.
  - exact (reach_step _ _ (reach_step _ _ (reach_init 0) (step_run 1000 cbA _)) (step_run 1000 cbB _)).
  - vm_compute. auto.
Qed.

(** C2 (as the code behaves with a facility whose first id is 0): after
    [run(1000, cbA)] and a call of its capability, the period is gone from
    the map ([getStats()] is empty, [getActiveIntervalCount()] is 0) but its
    timer, handle 0, is still live: [stop] tests [if (this.#intervalId)]
    and never calls [interval.clear(0)]. *)
Theorem zero_handle_survives_unsubscribe :
  fst (run 1000 cbA (init_world 0)) = Ok (mkUnsub 1000 0) /\
  reachable (exec (unsubscribe (mkUnsub 1000 0)) (ex_one 0)) /\
  getStats (exec (unsubscribe (mkUnsub 1000 0)) (ex_one 0)) = [] /\
  getActiveIntervalCount (exec (unsubscribe (mkUnsub 1000 0)) (ex_one 0)) = 0 /\
  live_timers_for 1000 (exec (unsubscribe (mkUnsub 1000 0)) (ex_one 0)) = 1.
Proof.
  split; [vm_compute; reflexivity|]. split.
  - exact (reach_step _ _ (reach_step _ _ (reach_init 0) (step_run 1000 cbA _))
             (step_unsubscribe (mkUnsub 1000 0) _)).
  - vm_compute. auto.
Qed.


(** C7, counterexample: the body of [iterate] runs only on the first
    [next()], which is when [this.run(delay, callback)] subscribes; ticks
    before it are not counted, and the first pull after three ticks
    suspends. *)
Lemma iterate_ticks_before_start_lost :
  fst (pulls 1 (ticks 3 iterate_init)) = [Suspended].
Proof. reflexivity. Qed.

(** C7, as the code behaves: ticks before the first [next()] are not
    counted (no subscription is live), that pull suspends at the [await],
    and the next tick settles it, leaving the session at [yield] with one
    tick delivered.  From such a session, a started one suspended at
    [yield] with no backlog, if the timer fires [k] times before the
    consumer pulls again, the next [k] pulls resolve at once, the
    [k+1]-th suspends, and the next tick settles it, leaving the session
    as before. *)
Theorem iterate_backlog (k0 k : nat) (st : session) :
  it_pc st = GenYield -> it_stopped st = false -> it_resolve st = false ->
  it_subscribed st = true -> it_lostTicks st = 1 ->
  ticks k0 iterate_init = iterate_init /\
  pull (ticks k0 iterate_init) = (mkSession GenAwait true false 0 true, Suspended) /\
  tick (mkSession GenAwait true false 0 true) = (mkSession GenYield false false 1 true, true) /\
  pulls (S k) (ticks k st) =
    (repeat Resolved k ++ [Suspended], mkSession GenAwait true false 0 true).
Proof.
  intros Hpc Hst Hr Hs Hl.
  assert (Ht0 : ticks k0 iterate_init = iterate_init)
    by (induction k0 as [|k0 IH]; [reflexivity | exact IH]).
  rewrite Ht0. split; [reflexivity|]. split; [reflexivity|]. split; [reflexivity|].
  rewrite ticks_waiting by assumption. rewrite Hl, Nat.add_1_r.
  rewrite pulls_pending; [rewrite <- Hs; reflexivity | exact Hpc | exact Hst | reflexivity].
Qed.

(** C8 (as the code behaves with a facility whose first id is 0):
    [dispose()] empties the set, marks the bucket disposed and logs no
    [#onEmpty] notification, and a second call changes nothing; but the
    timer with handle 0 stays live, also when [clear()] disposes the
    bucket. *)
Theorem zero_handle_survives_dispose :
  subs_of (exec (dispose 0) (ex_one 0)) 0 = [] /\
  b_disposed (bucket_of (exec (dispose 0) (ex_one 0)) 0) = true /\
  w_log (exec (dispose 0) (ex_one 0)) = w_log (ex_one 0) /\
  dispose 0 (exec (dispose 0) (ex_one 0)) = (Ok tt, exec (dispose 0) (ex_one 0)) /\
  live_timers_for 1000 (ex_one 0) = 1 /\
  live_timers_for 1000 (exec (dispose 0) (ex_one 0)) = 1 /\
  reachable (exec clear (ex_one 0)) /\
  getActiveIntervalCount (exec clear (ex_one 0)) = 0 /\
  live_timers_for 1000 (exec clear (ex_one 0)) = 1.
Proof.
  do 6 (split; [vm_compute; reflexivity|]). split.
  - exact (reach_step _ _ (reach_step _ _ (reach_init 0) (step_run 1000 cbA _)) (step_clear _)).
  - vm_compute. auto.
Qed.

(** C9: on a disposed bucket, [add] throws "Cannot add subscription to a
    disposed bucket" and [remove] throws "Cannot remove subscription from a
    disposed bucket", both leaving the world (timers included) unchanged. *)
Theorem disposed_bucket_throws (w : world) (r s : nat) :
  b_disposed (bucket_of w r) = true ->
  add r s w = (Throw ExAddDisposed, w) /\ remove r s w = (Throw ExRemoveDisposed, w).
Proof.
  intros H. cbv beta iota delta [add remove bind get_bucket throw]. rewrite H. split; reflexivity.
Qed.

(** ** Witnesses *)


Lemma iterate_backlog_witness :
  it_pc ex_session = GenYield /\ it_stopped ex_session = false /\
  it_resolve ex_session = false /\ it_subscribed ex_session = true /\
  it_lostTicks ex_session = 1 /\
  snd (pull (ticks 3 iterate_init)) = Suspended /\
  fst (pulls 3 (ticks 2 ex_session)) = [Resolved; Resolved; Suspended].
Proof.
  do 5 (split; [reflexivity|]).
  destruct (iterate_backlog 3 2 ex_session eq_refl eq_refl eq_refl eq_refl eq_refl)
    as (_ & Hp & _ & Hb).
  rewrite Hp, Hb. split; reflexivity.
Defined.

Lemma disposed_bucket_throws_witness :
  b_disposed (bucket_of (exec (unsubscribe (mkUnsub 1000 0)) (ex_one 1)) 0) = true /\
  add 0 0 (exec (unsubscribe (mkUnsub 1000 0)) (ex_one 1)) =
    (Throw ExAddDisposed, exec (unsubscribe (mkUnsub 1000 0)) (ex_one 1)).
Proof.
  assert (H : b_disposed (bucket_of (exec (unsubscribe (mkUnsub 1000 0)) (ex_one 1)) 0) = true)
    by (vm_compute; reflexivity).
  split; [exact H|].
  exact (proj1 (disposed_bucket_throws _ 0 0 H)).
Defined.

(** ** Timers, for a facility whose ids start at 1 or more *)






























(** ** Further properties of the pool *)





(** ** The earlier bucket *)

Lemma ob_state_eta (st : OldBucket.state) :
  st = OldBucket.mkState (OldBucket.o_delay st) (OldBucket.o_intervalId st)
         (OldBucket.o_subscriptions st) (OldBucket.o_timers st) (OldBucket.o_subs st)
         (OldBucket.o_log st).
Proof. destruct st; reflexivity. Qed.












(** ** Further properties of the earlier bucket *)


(** X8: [dispose()] of the earlier bucket is idempotent: a second call
    changes nothing. *)
Theorem old_dispose_idempotent (st : OldBucket.state) :
  OldBucket.dispose (OldBucket.dispose st) = OldBucket.dispose st.
Proof.
  destruct st as [d h l f tbl lg].
  unfold OldBucket.dispose, OldBucket.tryStop, OldBucket.with_subscriptions; simpl.
  destruct (truthy h) eqn:E; simpl; [reflexivity|]. rewrite E; reflexivity.
Qed.


(** ** Further properties of [iterate] *)

(** X11: [iterator.return()] (a [break] out of [for await]) taken before
    the body starts or while it is suspended at [yield] ends the
    generator: its subscription is released, later ticks leave the session
    unchanged and every later [next()] reports [done]. *)
Theorem iterate_return_ends (st : session) :
  it_pc st = GenStart \/ it_pc st = GenYield ->
  it_pc (gen_return st) = GenDone /\ it_subscribed (gen_return st) = false /\
  (forall k, ticks k (gen_return st) = gen_return st) /\
  (forall n, pulls n (gen_return st) = (repeat Finished n, gen_return st)).
Proof.
  intros Hpc.
  assert (Hd : it_pc (gen_return st) = GenDone /\ it_subscribed (gen_return st) = false)
    by (unfold gen_return; destruct Hpc as [-> | ->]; auto).
  destruct Hd as [Hd Hu]. split; [exact Hd|]. split; [exact Hu|]. split.
  - intros k; induction k as [|k IH]; [reflexivity|]. simpl. unfold tick at 1. rewrite Hu. exact IH.
  - intros n; induction n as [|n IH]; [reflexivity|]. simpl. unfold pull at 1. rewrite Hd. rewrite IH. reflexivity.
Qed.

(** ** Witnesses of the further properties *)







Lemma iterate_return_ends_witness :
  it_pc ex_session = GenYield /\ it_subscribed ex_session = true /\
  it_subscribed (gen_return ex_session) = false.
Proof.
  split; [reflexivity|]. split; [reflexivity|].
  exact (proj1 (proj2 (iterate_return_ends ex_session (or_intror eq_refl)))).
Defined.

(** ** The earlier pool *)

Lemma replace_nth_ge {A} (n : nat) (x : A) (l : list A) : length l <= n -> replace_nth n x l = l.
Proof.
  revert n; induction l as [|h t IH]; intros [|n] H; simpl in *; try lia; auto.
  f_equal; apply IH; lia.
Qed.





























(** ** Further properties of the earlier pool *)




Lemma oi_sreach_inv (st : OldIterate.session) :
  OldIterate.sreach st ->
  OldIterate.o_stopped st = false /\
  (OldIterate.o_pc st = GenStart -> st = OldIterate.init) /\
  (OldIterate.o_pc st = GenAwait -> OldIterate.o_resolve st = true /\ OldIterate.o_subscribed st = true) /\
  (OldIterate.o_pc st = GenYield -> OldIterate.o_resolve st = false /\ OldIterate.o_subscribed st = true) /\
  OldIterate.o_pc st <> GenDone.
Proof.
  induction 1 as [|st _ IH|st _ IH].
  - simpl; repeat split; try discriminate; auto.
  - destruct IH as (Hs & H0 & H1 & H2 & H3). destruct st as [pc rs stp sb]; simpl in *; subst stp.
    destruct pc; simpl.
    + repeat split; try discriminate; auto.
    + repeat split; try discriminate; try tauto; apply H1; reflexivity.
    + repeat split; try discriminate; auto. apply H2; reflexivity.
    + exfalso; apply H3; reflexivity.
  - destruct IH as (Hs & H0 & H1 & H2 & H3). destruct st as [pc rs stp sb]; simpl in *; subst stp.
    unfold OldIterate.tick; simpl. destruct pc.
    + specialize (H0 eq_refl). injection H0 as -> ->. simpl. repeat split; try discriminate; auto.
    + destruct (H1 eq_refl) as [-> ->]. simpl. repeat split; try discriminate; auto.
    + destruct (H2 eq_refl) as [-> ->]. simpl. repeat split; try discriminate; auto.
    + exfalso; apply H3; reflexivity.
Qed.

(** X16: in the earlier [iterate()], while the generator waits, the first
    tick resumes it up to its [yield]; every further tick before the next
    [next()] is dropped; and that [next()] makes it wait again. So the
    generator yields at most once per [next()]. *)
Theorem old_iterate_one_yield_per_pull (st : OldIterate.session) :
  OldIterate.sreach st -> OldIterate.o_pc st = GenAwait ->
  snd (OldIterate.tick st) = true /\
  OldIterate.o_pc (fst (OldIterate.tick st)) = GenYield /\
  (forall k, OldIterate.ticks k (fst (OldIterate.tick st)) = fst (OldIterate.tick st)) /\
  OldIterate.pull (fst (OldIterate.tick st)) = (OldIterate.mkSession GenAwait true false true, Suspended).
Proof.
  intros Hr Hpc. destruct (oi_sreach_inv st Hr) as (Hs & _ & H1 & _).
  destruct (H1 Hpc) as [Hrs Hsb].
  destruct st as [pc rs stp sb]; simpl in *; subst pc rs stp sb.
  unfold OldIterate.tick; simpl. split; [reflexivity|]. split; [reflexivity|].
  split; [|reflexivity]. induction k as [|k IH]; [reflexivity|]. exact IH.
Qed.











(** X19: deleting the same subscription twice from the earlier bucket
    is harmless: the second [delete] changes nothing, so in particular it
    calls [onStop] no second time. *)
Theorem old_delete_twice (st : OldBucket.state) (s : nat) :
  OldBucket.delete s (OldBucket.delete s st) = OldBucket.delete s st.
Proof.
  destruct st as [d h l f tbl lg].
  assert (E : set_delete s (set_delete s l) = set_delete s l)
    by (apply set_delete_notin; rewrite set_delete_In; tauto).
  unfold OldBucket.delete, OldBucket.tryStop, OldBucket.with_subscriptions.
  cbn -[set_delete Nat.ltb truthy].
  destruct (Nat.ltb 0 (length (set_delete s l))) eqn:L;
    cbn -[set_delete Nat.ltb truthy]; rewrite ?E, ?L; [reflexivity|].
  destruct (truthy h) eqn:T; cbn -[set_delete Nat.ltb truthy]; rewrite ?E, ?L, ?T; reflexivity.
Qed.

(** ** Witnesses of the earlier implementation's properties *)




Lemma old_iterate_one_yield_per_pull_witness :
  OldIterate.sreach (fst (OldIterate.pull OldIterate.init)) /\
  OldIterate.ticks 3 (fst (OldIterate.tick (fst (OldIterate.pull OldIterate.init)))) =
  OldIterate.mkSession GenYield false false true.
Proof.
  assert (Hr : OldIterate.sreach (fst (OldIterate.pull OldIterate.init)))
    by (apply OldIterate.sreach_pull, OldIterate.sreach_init).
  destruct (old_iterate_one_yield_per_pull _ Hr eq_refl) as (_ & _ & Hk & _).
  split; [exact Hr|]. rewrite Hk. reflexivity.
Defined.



(** ** Callbacks that call back into the pool: proofs *)

Import Reentrant.

(** *** Sets as entry lists *)

Lemma re_members_app (a b : list (option nat)) : members (a ++ b) = members a ++ members b.
Proof. induction a as [|[x|] a IH]; simpl; rewrite ?IH; reflexivity. Qed.

Lemma re_In_members (x : nat) (es : list (option nat)) : In x (members es) <-> In (Some x) es.
Proof.
  induction es as [|[y|] es IH]; simpl; [tauto| |].
  - rewrite IH. split; intros [E|H]; try (left; congruence); auto.
  - rewrite IH. split; [auto|]. intros [E|H]; [discriminate | exact H].
Qed.

Lemma re_nth_members (es : list (option nat)) (j x : nat) :
  nth_error es j = Some (Some x) -> In x (members es).
Proof. intros H. apply re_In_members, nth_error_In with (n := j), H. Qed.

Lemma re_members_nth (es : list (option nat)) (x : nat) :
  In x (members es) -> exists j, nth_error es j = Some (Some x).
Proof. intros H. apply re_In_members, In_nth_error in H. exact H. Qed.

Lemma re_punch_refl (es : list (option nat)) : punch es es.
Proof. induction es; constructor; auto. Qed.

Lemma re_punch_trans (a b c : list (option nat)) : punch a b -> punch b c -> punch a c.
Proof.
  intros H1; revert c; induction H1 as [|x y a b Hxy H1 IH]; intros c H2;
    inversion H2 as [|y' z b' c' Hyz H2']; subst; constructor.
  - destruct Hxy as [E1|E1]; destruct Hyz as [E2|E2]; subst; auto.
  - apply IH, H2'.
Qed.

Lemma re_punch_in (es es' : list (option nat)) (x : nat) :
  punch es es' -> In x (members es') -> In x (members es).
Proof.
  induction 1 as [|e e' es es' He H IH]; simpl; [tauto|].
  destruct He as [?E|?E]; subst; [destruct e as [y|]; simpl; [intros [E|Hx]; auto | auto] | auto].
  destruct e as [y|]; simpl; auto.
Qed.

Lemma re_punch_sorted (es es' : list (option nat)) :
  punch es es' -> StronglySorted lt (members es) -> StronglySorted lt (members es').
Proof.
  induction 1 as [|e e' es es' He H IH]; simpl; [auto|]. intros Hs.
  destruct He as [?E|?E]; subst.
  - destruct e as [y|]; simpl in *; [|auto].
    apply StronglySorted_inv in Hs as [Hs Hall]. constructor; [auto|].
    rewrite Forall_forall in *. intros z Hz. apply Hall, (re_punch_in es es'); assumption.
  - destruct e as [y|]; simpl in *; [apply StronglySorted_inv in Hs as [Hs _]|]; auto.
Qed.

Lemma re_punch_nil (es es' : list (option nat)) :
  punch es es' -> members es = [] -> members es' = [].
Proof.
  intros H E. destruct (members es') as [|x l] eqn:E'; [reflexivity|].
  exfalso. assert (Hx : In x (members es')) by (rewrite E'; left; reflexivity).
  apply (re_punch_in es es' x H) in Hx. rewrite E in Hx. destruct Hx.
Qed.

Lemma re_punch_nth (es es' : list (option nat)) (j x : nat) :
  punch es es' -> nth_error es' j = Some (Some x) -> nth_error es j = Some (Some x).
Proof.
  intros H; revert j; induction H as [|e e' es es' He H IH]; intros [|j]; simpl; try discriminate.
  - intros E. inversion E; subst. destruct He as [?E|?E]; subst; [reflexivity | discriminate].
  - apply IH.
Qed.

Lemma re_punch_nth_hole (es es' : list (option nat)) (j x : nat) :
  punch es es' -> nth_error es j = Some (Some x) ->
  nth_error es' j = Some (Some x) \/ nth_error es' j = Some None.
Proof.
  intros H; revert j; induction H as [|e e' es es' He H IH]; intros [|j]; simpl; try discriminate.
  - intros E. inversion E; subst. destruct He as [?E|?E]; subst; auto.
  - apply IH.
Qed.

Lemma re_punch_length (es es' : list (option nat)) : punch es es' -> length es' = length es.
Proof. intros H. symmetry. apply (Forall2_length H). Qed.

Lemma re_punch_delete (s : nat) (es : list (option nat)) : punch es (set_delete s es).
Proof.
  induction es as [|e es IH]; simpl; [constructor|].
  destruct (entry_is s e); constructor; auto; apply re_punch_refl.
Qed.

Lemma re_punch_clear (es : list (option nat)) : punch es (set_clear es).
Proof. induction es; simpl; constructor; auto. Qed.

Lemma re_members_clear (es : list (option nat)) : members (set_clear es) = [].
Proof. induction es; simpl; auto. Qed.

Lemma re_delete_gone (s : nat) (es : list (option nat)) :
  NoDup (members es) -> ~ In s (members (set_delete s es)).
Proof.
  induction es as [|[x|] es IH]; simpl; [tauto| |].
  - destruct (Nat.eqb_spec x s) as [->|Hne]; simpl; intros Hnd; inversion Hnd; subst.
    + exact H1.
    + intros [E|H]; [congruence | exact (IH H2 H)].
  - exact IH.
Qed.

Lemma re_set_has_false (s : nat) (es : list (option nat)) :
  ~ In s (members es) -> set_has s es = false.
Proof.
  intros H. unfold set_has. apply Bool.not_true_iff_false. intros E.
  apply existsb_exists in E as ([y|] & Hy & E); simpl in E; [|discriminate].
  apply Nat.eqb_eq in E; subst. apply H, re_In_members, Hy.
Qed.

(** In a set listing its members in increasing order, the entry at a
    smaller index holds a smaller member. *)
Lemma re_sorted_nth (es : list (option nat)) (i j a b : nat) :
  StronglySorted lt (members es) -> nth_error es i = Some (Some a) ->
  nth_error es j = Some (Some b) -> i < j -> a < b.
Proof.
  revert i j; induction es as [|e es IH]; intros i j Hs Hi Hj Hij; [destruct i; discriminate|].
  destruct i as [|i], j as [|j]; try lia; simpl in Hi, Hj.
  - inversion Hi; subst. simpl in Hs. apply StronglySorted_inv in Hs as [_ Hall].
    rewrite Forall_forall in Hall. apply Hall, (re_nth_members es j), Hj.
  - destruct e as [y|]; simpl in Hs; [apply StronglySorted_inv in Hs as [Hs _]|];
      apply (IH i j); auto; lia.
Qed.

Lemma re_sorted_nth_unique (es : list (option nat)) (i j a : nat) :
  StronglySorted lt (members es) -> nth_error es i = Some (Some a) ->
  nth_error es j = Some (Some a) -> i = j.
Proof.
  intros Hs Hi Hj. destruct (Nat.lt_trichotomy i j) as [H|[H|H]]; [| exact H |].
  - pose proof (re_sorted_nth es i j a a Hs Hi Hj H); lia.
  - pose proof (re_sorted_nth es j i a a Hs Hj Hi H); lia.
Qed.

(** Emptying the only entry of a member removes it from the set. *)
Lemma re_punch_hole_gone (es es' : list (option nat)) (j x : nat) :
  punch es es' -> StronglySorted lt (members es) -> nth_error es j = Some (Some x) ->
  nth_error es' j = Some None -> ~ In x (members es').
Proof.
  intros Hp Hs Hj Hj' Hin. apply re_members_nth in Hin as (k & Hk).
  assert (Hk0 := re_punch_nth es es' k x Hp Hk).
  assert (E := re_sorted_nth_unique es j k x Hs Hj Hk0). subst k. congruence.
Qed.

Lemma re_nth_error_app_cases {A} (l1 l2 : list A) (j : nat) (x : A) :
  nth_error (l1 ++ l2) j = Some x ->
  (j < length l1 /\ nth_error l1 j = Some x) \/ (length l1 <= j /\ In x l2).
Proof.
  intros H. destruct (Nat.lt_ge_cases j (length l1)) as [Hj|Hj].
  - left. rewrite nth_error_app1 in H by exact Hj. auto.
  - right. rewrite nth_error_app2 in H by exact Hj. split; [exact Hj|].
    apply nth_error_In in H. exact H.
Qed.

(** *** The heap of buckets *)

Lemma re_bucket_of_replace (w : world) (r r' : nat) (x : bucket) :
  bucket_of (with_heap w (replace_nth r x (w_heap w))) r' =
  if Nat.eqb r' r then (if Nat.ltb r (length (w_heap w)) then x else bucket_of w r')
  else bucket_of w r'.
Proof.
  unfold bucket_of, with_heap; simpl.
  destruct (Nat.ltb_spec r (length (w_heap w))) as [Hr|Hr].
  - rewrite nth_replace_nth by exact Hr. destruct (Nat.eqb r' r); reflexivity.
  - rewrite replace_nth_ge by exact Hr. destruct (Nat.eqb r' r); reflexivity.
Qed.

Lemma re_live_in_heap (w : world) (r : nat) :
  b_disposed (bucket_of w r) = false -> r < length (w_heap w).
Proof.
  intros H. destruct (Nat.lt_ge_cases r (length (w_heap w))) as [|Hge]; [assumption|].
  unfold bucket_of in H. rewrite nth_overflow in H by exact Hge. discriminate.
Qed.

(** *** Worlds that only lose entries *)

Lemma re_safe_refl (w : world) : safe w w.
Proof.
  split; [reflexivity|]. split; [exists []; rewrite app_nil_r; auto|].
  split; [intros; apply re_punch_refl | auto].
Qed.

Lemma re_safe_trans (w1 w2 w3 : world) : safe w1 w2 -> safe w2 w3 -> safe w1 w3.
Proof.
  intros (Hs1 & (ev1 & Hl1 & Hc1) & Hp1 & Hd1) (Hs2 & (ev2 & Hl2 & Hc2) & Hp2 & Hd2).
  split; [congruence|]. split.
  - exists (ev1 ++ ev2). rewrite Hl2, Hl1, app_assoc, calls_app, Hc1, Hc2. auto.
  - split; [intros r; apply (re_punch_trans _ _ _ (Hp1 r) (Hp2 r))|].
    intros r Hr. destruct (Hd2 r Hr) as [H|H]; [|auto].
    destruct (Hd1 r H) as [H'|H']; [auto|]. right. apply (re_punch_nil _ _ (Hp2 r) H').
Qed.

Lemma re_safe_bind {A B} (m : M A) (k : A -> M B) :
  rel_op safe m -> (forall a, rel_op safe (k a)) -> rel_op safe (bind m k).
Proof.
  intros Hm Hk w. specialize (Hm w). unfold bind.
  destruct (m w) as [[a|e] w1]; simpl in *; [apply (re_safe_trans _ w1); [exact Hm | apply Hk] | exact Hm].
Qed.

Lemma re_safe_same {A} (m : M A) : (forall w, snd (m w) = w) -> rel_op safe m.
Proof. intros H w. rewrite H. apply re_safe_refl. Qed.

(** Replacing one bucket, and possibly the map, the timers and the log. *)
Lemma re_safe_replace (w : world) (r : nat) (x : bucket) m f lg :
  punch (b_entries (bucket_of w r)) (b_entries x) ->
  (b_disposed x = true -> b_disposed (bucket_of w r) = true \/ members (b_entries x) = []) ->
  (exists ev, lg = w_log w ++ ev /\ calls ev = []) ->
  safe w (mkWorld (replace_nth r x (w_heap w)) m f (w_subs w) lg).
Proof.
  intros Hp Hd Hl. split; [reflexivity|]. split; [exact Hl|].
  assert (E : forall r', bucket_of (mkWorld (replace_nth r x (w_heap w)) m f (w_subs w) lg) r' =
                     bucket_of (with_heap w (replace_nth r x (w_heap w))) r') by reflexivity.
  split; intros r'; unfold entries_of; rewrite E, re_bucket_of_replace;
    destruct (Nat.eqb_spec r' r) as [Er|Er]; try subst r'; try destruct (Nat.ltb r (length (w_heap w)));
    auto using re_punch_refl.
Qed.

Lemma re_safe_modify (r : nat) (f : bucket -> bucket) :
  (forall b, b_disposed (f b) = b_disposed b) ->
  (forall b, punch (b_entries b) (b_entries (f b))) ->
  rel_op safe (modify_bucket r f).
Proof.
  intros Hd Hp w. unfold modify_bucket; simpl. destruct w as [h m f0 ss lg]. simpl.
  apply (re_safe_replace (mkWorld h m f0 ss lg)); [apply Hp | rewrite Hd; auto |].
  exists []; rewrite app_nil_r; auto.
Qed.

Lemma re_safe_log (e : event) : calls [e] = [] -> rel_op safe (log e).
Proof.
  intros Hc w. split; [reflexivity|]. split; [exists [e]; auto|].
  split; intros; [apply re_punch_refl | auto].
Qed.

Lemma re_safe_frame (w : world) m f :
  safe w (mkWorld (w_heap w) m f (w_subs w) (w_log w)).
Proof.
  split; [reflexivity|]. split; [exists []; rewrite app_nil_r; auto|].
  split; intros; [apply re_punch_refl | auto].
Qed.

Ltac re_safe :=
  repeat match goal with
  | |- rel_op safe (bind _ _) => apply re_safe_bind; [|intro]
  | |- rel_op safe (if ?b then _ else _) => destruct b
  | |- rel_op safe (match ?o with _ => _ end) => destruct o
  | |- rel_op safe (ret _) => apply re_safe_same; reflexivity
  | |- rel_op safe (throw _) => apply re_safe_same; reflexivity
  | |- rel_op safe (get_bucket _) => apply re_safe_same; reflexivity
  | |- rel_op safe (get_world) => apply re_safe_same; reflexivity
  | |- rel_op safe (get_sub _) => apply re_safe_same; reflexivity
  | |- rel_op safe (map_get _) => apply re_safe_same; reflexivity
  | |- rel_op safe (map_delete _) => intros ?w; apply re_safe_frame
  | |- rel_op safe (map_clear) => intros ?w; apply re_safe_frame
  | |- rel_op safe (map_set _ _) => intros ?w; apply re_safe_frame
  | |- rel_op safe (interval_clear_M _) => intros ?w; apply re_safe_frame
  | |- rel_op safe (interval_set_M _ _) =>
      intros ?w; unfold interval_set_M; destruct (interval_set _ _ _); apply re_safe_frame
  | |- rel_op safe (log _) => apply re_safe_log; reflexivity
  | |- rel_op safe (modify_bucket _ (set_intervalId _)) =>
      apply re_safe_modify; [reflexivity | intros; apply re_punch_refl]
  | |- rel_op safe (modify_bucket _ (set_onEmpty _)) =>
      apply re_safe_modify; [reflexivity | intros; apply re_punch_refl]
  | |- rel_op safe (modify_bucket _ (fun b => set_entries (set_delete _ (b_entries b)) b)) =>
      apply re_safe_modify; [reflexivity | intros; apply re_punch_delete]
  end.

Lemma re_stop_safe (r : nat) : rel_op safe (stop r).
Proof. unfold stop. re_safe. Qed.

Lemma re_tryStart_safe (r : nat) : rel_op safe (tryStart r).
Proof. unfold tryStart. re_safe. Qed.

(** *** [stop], [dispose] and the methods built on them *)

Lemma re_stop_eq (w : world) (r : nat) :
  b_disposed (bucket_of w r) = false ->
  stop r w =
  (Ok tt,
   if truthy (b_intervalId (bucket_of w r))
   then mkWorld (replace_nth r (set_intervalId HUndefined (bucket_of w r)) (w_heap w))
          (w_buckets w) (interval_clear (w_timers w) (b_intervalId (bucket_of w r)))
          (w_subs w) (w_log w)
   else w).
Proof.
  intros H; unfold stop, bind, get_bucket; rewrite H.
  destruct (truthy _); reflexivity.
Qed.

Lemma re_dispose_eq (w : world) (r : nat) :
  b_disposed (bucket_of w r) = false ->
  dispose r w =
  (Ok tt,
   mkWorld (replace_nth r (disposed_bucket (bucket_of w r)) (w_heap w)) (w_buckets w)
     (if truthy (b_intervalId (bucket_of w r))
      then interval_clear (w_timers w) (b_intervalId (bucket_of w r)) else w_timers w)
     (w_subs w) (w_log w)).
Proof.
  intros H. pose proof (re_live_in_heap w r H) as Hr.
  unfold dispose, bind, get_bucket, modify_bucket; rewrite H.
  unfold with_heap at 1; rewrite re_stop_eq; unfold bucket_of in *; simpl;
    rewrite nth_replace_same by exact Hr; [|exact H].
  unfold disposed_bucket, set_entries, set_intervalId, set_onEmpty, set_disposed.
  simpl.
  destruct (truthy (b_intervalId (nth r (w_heap w) dead_bucket))) eqn:Ht; simpl;
    rewrite ?replace_nth_twice, ?nth_replace_same
      by (rewrite ?replace_nth_length; exact Hr);
    simpl; rewrite ?replace_nth_twice; reflexivity.
Qed.

Lemma re_dispose_ok (w : world) (r : nat) : fst (dispose r w) = Ok tt.
Proof.
  destruct (b_disposed (bucket_of w r)) eqn:H.
  - unfold dispose, bind, get_bucket. rewrite H. reflexivity.
  - rewrite re_dispose_eq by exact H. reflexivity.
Qed.

Lemma re_dispose_safe (r : nat) : rel_op safe (dispose r).
Proof.
  intros w. destruct (b_disposed (bucket_of w r)) eqn:H.
  - unfold dispose, bind, get_bucket. rewrite H. apply re_safe_refl.
  - rewrite re_dispose_eq by exact H. simpl. apply re_safe_replace.
    + apply re_punch_clear.
    + intros _. right. apply re_members_clear.
    + exists []. rewrite app_nil_r. auto.
Qed.

Lemma re_onEmptyBucket_safe (r : nat) : rel_op safe (onEmptyBucket r).
Proof. unfold onEmptyBucket. apply re_safe_bind; [apply re_dispose_safe | intros []]. re_safe. Qed.

Lemma re_remove_safe (r s : nat) : rel_op safe (remove r s).
Proof.
  unfold remove. re_safe; try apply re_stop_safe; try apply re_onEmptyBucket_safe.
Qed.

Lemma re_unsubscribe_safe (u : unsubscribe_fn) : rel_op safe (unsubscribe u).
Proof. unfold unsubscribe. re_safe. apply re_remove_safe. Qed.

Lemma re_dispose_all_safe (l : list nat) : rel_op safe (dispose_all l).
Proof.
  induction l as [|r l IH]; simpl; [re_safe|].
  apply re_safe_bind; [apply re_dispose_safe | intros []; exact IH].
Qed.

Lemma re_dispose_all_ok (l : list nat) (w : world) : fst (dispose_all l w) = Ok tt.
Proof.
  revert w; induction l as [|r l IH]; intros w; simpl; [reflexivity|].
  unfold bind. pose proof (re_dispose_ok w r) as H.
  destruct (dispose r w) as [[[]|e] w1]; simpl in H; [apply IH | discriminate].
Qed.

Lemma re_clear_safe : rel_op safe clear.
Proof. unfold clear. re_safe. apply re_dispose_all_safe. Qed.

(** *** What safe steps keep *)

Lemma re_safe_evolve (w w' : world) : safe w w' -> evolve w w'.
Proof.
  intros (Hs & (ev & Hl & _) & Hp & _). split; [exists []; rewrite Hs, app_nil_r; reflexivity|].
  split; [exists ev; exact Hl|].
  intros r. exists (entries_of w' r), []. rewrite app_nil_r. split; [reflexivity|].
  split; [apply Hp | intros x []].
Qed.

Lemma re_safe_calls (w w' : world) : safe w w' -> calls (w_log w') = calls (w_log w).
Proof. intros (_ & (ev & Hl & Hc) & _). rewrite Hl, calls_app, Hc, app_nil_r. reflexivity. Qed.

Lemma re_safe_inv (ex : option (nat * nat)) (w w' : world) : safe w w' -> inv ex w -> inv ex w'.
Proof.
  intros Hsafe H. pose proof (re_safe_calls w w' Hsafe) as Hc.
  destruct Hsafe as (Hs & _ & Hp & Hd).
  assert (Hsub : forall s, sub_of w' s = sub_of w s) by (intros s; unfold sub_of; rewrite Hs; reflexivity).
  assert (Hin : forall r x, In x (members (entries_of w' r)) -> In x (members (entries_of w r)))
    by (intros r x; apply re_punch_in, Hp).
  destruct H as [Hso Hb Hu Hdi Hca Hon]. split.
  - intros r. apply (re_punch_sorted _ _ (Hp r)), Hso.
  - intros r x Hx. rewrite Hs. apply (Hb r), Hin, Hx.
  - intros r1 r2 x H1 H2. apply (Hu r1 r2 x); apply Hin; assumption.
  - intros r Hr. destruct (Hd r Hr) as [H0|H0]; [|exact H0].
    apply (re_punch_nil _ _ (Hp r)), Hdi, H0.
  - intros s. rewrite Hc, Hs. apply Hca.
  - intros s. rewrite Hsub, Hc. intros Ho Hcs. destruct (Hon s Ho Hcs) as [Hn Hr].
    split; [exact Hn|]. intros r Hx. apply Hr, (Hin r), Hx.
Qed.

(** *** The map holds live buckets *)

Lemma re_keeps_bind {A B} (P : world -> Prop) (m : M A) (k : A -> M B) :
  keeps P m -> (forall a, keeps P (k a)) -> keeps P (bind m k).
Proof.
  intros Hm Hk w Hw. specialize (Hm w Hw). unfold bind.
  destruct (m w) as [[a|e] w1]; simpl in *; [apply Hk, Hm | exact Hm].
Qed.

Lemma re_keeps_same {A} (P : world -> Prop) (m : M A) : (forall w, snd (m w) = w) -> keeps P m.
Proof. intros H w Hw. rewrite H. exact Hw. Qed.

Lemma re_map_ok_heap (w : world) (h : list bucket) f ss lg :
  (forall r, b_disposed (bucket_of w r) = false ->
     b_disposed (nth r h dead_bucket) = false /\
     b_delay (nth r h dead_bucket) = b_delay (bucket_of w r)) ->
  map_ok w -> map_ok (mkWorld h (w_buckets w) f ss lg).
Proof.
  intros Hh Hm d r Hl. destruct (Hm d r Hl) as [Hd Hdl]. unfold bucket_of; simpl.
  destruct (Hh r Hd) as [H1 H2]. split; [exact H1 | rewrite H2; exact Hdl].
Qed.

Lemma re_map_ok_modify (r : nat) (f : bucket -> bucket) :
  (forall b, b_disposed (f b) = b_disposed b) -> (forall b, b_delay (f b) = b_delay b) ->
  keeps map_ok (modify_bucket r f).
Proof.
  intros Hd Hdl w Hw. unfold modify_bucket; simpl. destruct w as [h m f0 ss lg].
  apply (re_map_ok_heap (mkWorld h m f0 ss lg)); [|exact Hw].
  intros r' Hr'. unfold bucket_of; simpl.
  destruct (Nat.ltb_spec r (length h)) as [Hr|Hr].
  - rewrite nth_replace_nth by exact Hr. destruct (Nat.eqb_spec r' r) as [->|]; [|auto].
    rewrite Hd, Hdl. unfold bucket_of in Hr'; simpl in Hr'. auto.
  - rewrite replace_nth_ge by exact Hr. auto.
Qed.

Lemma re_map_ok_frame (w : world) f lg : map_ok w -> map_ok (mkWorld (w_heap w) (w_buckets w) f (w_subs w) lg).
Proof. intros H d r Hl. apply (H d r Hl). Qed.

Ltac re_keeps :=
  repeat match goal with
  | |- keeps _ (bind _ _) => apply re_keeps_bind; [|intro]
  | |- keeps _ (if ?b then _ else _) => destruct b
  | |- keeps _ (match ?o with _ => _ end) => destruct o
  | |- keeps _ (ret _) => apply re_keeps_same; reflexivity
  | |- keeps _ (throw _) => apply re_keeps_same; reflexivity
  | |- keeps _ (get_bucket _) => apply re_keeps_same; reflexivity
  | |- keeps _ (get_world) => apply re_keeps_same; reflexivity
  | |- keeps _ (get_sub _) => apply re_keeps_same; reflexivity
  | |- keeps _ (map_get _) => apply re_keeps_same; reflexivity
  | |- keeps map_ok (interval_clear_M _) => intros ?w ?Hw; apply re_map_ok_frame, Hw
  | |- keeps map_ok (interval_set_M _ _) =>
      intros ?w ?Hw; unfold interval_set_M; destruct (interval_set _ _ _); apply re_map_ok_frame, Hw
  | |- keeps map_ok (log _) => intros ?w ?Hw; apply re_map_ok_frame, Hw
  | |- keeps map_ok (modify_bucket _ _) => apply re_map_ok_modify; reflexivity
  end.

Lemma re_stop_map_ok (r : nat) : keeps map_ok (stop r).
Proof. unfold stop. re_keeps. Qed.

Lemma re_tryStart_map_ok (r : nat) : keeps map_ok (tryStart r).
Proof. unfold tryStart. re_keeps. Qed.

Lemma re_onEmptyBucket_map_ok (r : nat) : keeps map_ok (onEmptyBucket r).
Proof.
  intros w Hw. unfold onEmptyBucket, bind.
  destruct (b_disposed (bucket_of w r)) eqn:H.
  - unfold dispose, bind, get_bucket. rewrite H. simpl.
    intros d r' Hl. unfold with_buckets in Hl; simpl in Hl.
    rewrite map_lookup_remove in Hl. destruct (Z.eqb d _); [discriminate|]. apply (Hw d r' Hl).
  - rewrite re_dispose_eq by exact H. simpl. pose proof (re_live_in_heap w r H) as Hr.
    unfold get_bucket, map_delete, with_buckets; simpl.
    intros d r' Hl. simpl in Hl.
    assert (Eb : forall r0, bucket_of (mkWorld (replace_nth r (disposed_bucket (bucket_of w r)) (w_heap w))
      (w_buckets w) (if truthy (b_intervalId (bucket_of w r))
        then interval_clear (w_timers w) (b_intervalId (bucket_of w r)) else w_timers w)
      (w_subs w) (w_log w)) r0 = if Nat.eqb r0 r then disposed_bucket (bucket_of w r) else bucket_of w r0)
      by (intros r0; unfold bucket_of at 1; simpl; rewrite nth_replace_nth by exact Hr; reflexivity).
    rewrite Eb, Nat.eqb_refl in Hl. simpl in Hl. unfold bucket_of. simpl.
    rewrite map_lookup_remove in Hl. destruct (Z.eqb_spec d (b_delay (bucket_of w r))) as [|Hne];
      [discriminate|].
    destruct (Hw d r' Hl) as [H1 H2].
    rewrite nth_replace_nth by exact Hr. destruct (Nat.eqb_spec r' r) as [->|]; [|auto].
    exfalso. apply Hne. symmetry. exact H2.
Qed.

Lemma re_remove_map_ok (r s : nat) : keeps map_ok (remove r s).
Proof.
  unfold remove. re_keeps; try apply re_stop_map_ok; try apply re_onEmptyBucket_map_ok.
Qed.

Lemma re_unsubscribe_map_ok (u : unsubscribe_fn) : keeps map_ok (unsubscribe u).
Proof. unfold unsubscribe. re_keeps. apply re_remove_map_ok. Qed.

Lemma re_clear_map_ok : keeps map_ok clear.
Proof.
  intros w _. unfold clear, bind, get_world. pose proof (re_dispose_all_ok (map snd (w_buckets w)) w) as H.
  destruct (dispose_all _ w) as [[[]|e] w1]; simpl in H; [|discriminate].
  intros d r Hl. discriminate.
Qed.

(** *** [#subscribe] *)

Lemma re_nth_snoc {A} (h : list A) (x d : A) (r : nat) :
  nth r (h ++ [x]) d = if Nat.eqb r (length h) then x else nth r h d.
Proof.
  destruct (Nat.lt_trichotomy r (length h)) as [H|[H|H]].
  - rewrite app_nth1 by exact H. destruct (Nat.eqb_spec r (length h)); [lia | reflexivity].
  - subst r. rewrite app_nth2 by lia. rewrite Nat.sub_diag, Nat.eqb_refl. reflexivity.
  - rewrite app_nth2 by lia. rewrite (nth_overflow h) by lia.
    destruct (Nat.eqb_spec r (length h)); [lia|].
    destruct (r - length h) as [|[|k]] eqn:E; [lia | reflexivity | reflexivity].
Qed.

Lemma re_add_eq (w : world) (r s : nat) :
  b_disposed (bucket_of w r) = false ->
  exists h f,
    add r s w =
    (Ok tt, mkWorld (replace_nth r (mkBucket false h (b_onEmpty (bucket_of w r))
                                    (b_delay (bucket_of w r)) (set_add s (entries_of w r)))
                      (w_heap w))
              (w_buckets w) f (w_subs w) (w_log w)).
Proof.
  intros H. pose proof (re_live_in_heap w r H) as Hr.
  unfold add, bind, get_bucket, modify_bucket; rewrite H.
  assert (Hlt : Nat.ltb r (length (w_heap w)) = true) by (apply Nat.ltb_lt; exact Hr).
  unfold tryStart, bind, get_bucket. rewrite re_bucket_of_replace, Nat.eqb_refl, Hlt. simpl.
  destruct (truthy (b_intervalId (bucket_of w r))).
  - exists (b_intervalId (bucket_of w r)), (w_timers w). unfold ret.
    unfold set_entries, entries_of. rewrite <- H. reflexivity.
  - eexists; eexists. unfold modify_bucket. simpl.
    assert (E : forall w0 f0, bucket_of (with_timers w0 f0) r = bucket_of w0 r) by reflexivity.
    rewrite E, re_bucket_of_replace, Nat.eqb_refl, Hlt. simpl.
    rewrite replace_nth_twice.
    unfold set_intervalId, set_entries, entries_of; simpl. rewrite H. reflexivity.
Qed.

Lemma re_upsert (w : world) (d : Z) :
  map_ok w ->
  exists r w',
    upsertBucket d w = (Ok r, w') /\
    w_subs w' = w_subs w /\ w_log w' = w_log w /\
    map_lookup d (w_buckets w') = Some r /\
    (map_lookup d (w_buckets w) = Some r \/
     (map_lookup d (w_buckets w) = None /\ entries_of w r = [])) /\
    (forall d', d' <> d -> map_lookup d' (w_buckets w') = map_lookup d' (w_buckets w)) /\
    b_disposed (bucket_of w' r) = false /\ b_delay (bucket_of w' r) = d /\
    entries_of w' r = entries_of w r /\
    (forall r', r' <> r -> bucket_of w' r' = bucket_of w r') /\
    map_ok w'.
Proof.
  intros Hm. unfold upsertBucket, bind, map_get.
  destruct (map_lookup d (w_buckets w)) as [r|] eqn:Hl.
  - destruct (Hm d r Hl) as [Hd Hdl].
    exists r, w. simpl. repeat split; auto; apply (Hm _ _ H).
  - exists (length (w_heap w)). eexists. split; [reflexivity|].
    assert (Hb : forall r', bucket_of (with_buckets (with_heap w (w_heap w ++ [new_bucket d]))
                    (map_insert d (length (w_heap w)) (w_buckets (with_heap w (w_heap w ++ [new_bucket d]))))) r' =
                 if Nat.eqb r' (length (w_heap w)) then new_bucket d else bucket_of w r')
      by (intros r'; unfold bucket_of; simpl; apply re_nth_snoc).
    assert (Hi : forall d', map_lookup d' (w_buckets (with_buckets (with_heap w (w_heap w ++ [new_bucket d]))
                    (map_insert d (length (w_heap w)) (w_buckets (with_heap w (w_heap w ++ [new_bucket d])))))) =
                 if Z.eqb d' d then Some (length (w_heap w)) else map_lookup d' (w_buckets w))
      by (intros d'; simpl; unfold map_insert; rewrite Hl; apply map_lookup_app_new, Hl).
    assert (Hdead : entries_of w (length (w_heap w)) = [])
      by (unfold entries_of, bucket_of; rewrite nth_overflow by lia; reflexivity).
    split; [reflexivity|]. split; [reflexivity|].
    split; [rewrite Hi, Z.eqb_refl; reflexivity|].
    split; [right; auto|].
    split; [intros d' Hne; rewrite Hi; apply Z.eqb_neq in Hne; rewrite Hne; reflexivity|].
    unfold entries_of at 1. rewrite !Hb, Nat.eqb_refl. simpl.
    split; [reflexivity|]. split; [reflexivity|]. split; [rewrite <- Hdead; reflexivity|].
    split; [intros r' Hne; rewrite Hb; apply Nat.eqb_neq in Hne; rewrite Hne; reflexivity|].
    intros d' r' Hl'. rewrite Hi in Hl'. rewrite Hb.
    destruct (Z.eqb_spec d' d) as [->|Hne].
    + inversion Hl'; subst. rewrite Nat.eqb_refl. auto.
    + destruct (Hm d' r' Hl') as [Hd Hdl]. pose proof (re_live_in_heap w r' Hd).
      destruct (Nat.eqb_spec r' (length (w_heap w))); [lia | auto].
Qed.

(** What [#subscribe] does in a pool whose map holds live buckets: it
    appends a fresh subscription object and an entry for it at the end of
    the set of the bucket the map then holds for the period. *)
Lemma re_subscribe (w : world) (d : Z) (sub : subscription) :
  map_ok w ->
  (forall r, ~ In (length (w_subs w)) (members (entries_of w r))) ->
  exists r w',
    subscribe d sub w = (Ok (mkUnsub d (length (w_subs w))), w') /\
    w_subs w' = w_subs w ++ [sub] /\ w_log w' = w_log w /\
    map_lookup d (w_buckets w') = Some r /\
    (map_lookup d (w_buckets w) = Some r \/
     (map_lookup d (w_buckets w) = None /\ entries_of w r = [])) /\
    (forall d', d' <> d -> map_lookup d' (w_buckets w') = map_lookup d' (w_buckets w)) /\
    b_disposed (bucket_of w' r) = false /\
    entries_of w' r = entries_of w r ++ [Some (length (w_subs w))] /\
    (forall r', r' <> r -> bucket_of w' r' = bucket_of w r') /\
    map_ok w'.
Proof.
  intros Hm Hfresh.
  set (w1 := with_subs w (w_subs w ++ [sub])).
  assert (Hm1 : map_ok w1) by exact Hm.
  destruct (re_upsert w1 d Hm1) as (r & w2 & Hu & Hs2 & Hl2 & Hk2 & Hold & Hoth & Hd2 & Hdl2 & He2 & Hb2 & Hm2).
  destruct (re_add_eq w2 r (length (w_subs w)) Hd2) as (h & f & Ha).
  exists r. eexists. unfold subscribe, bind, alloc_sub. fold w1. rewrite Hu, Ha. unfold ret.
  split; [reflexivity|]. simpl.
  pose proof (re_live_in_heap w2 r Hd2) as Hr.
  assert (Hb : forall r', bucket_of (mkWorld (replace_nth r (mkBucket false h (b_onEmpty (bucket_of w2 r))
       (b_delay (bucket_of w2 r)) (set_add (length (w_subs w)) (entries_of w2 r))) (w_heap w2))
       (w_buckets w2) f (w_subs w2) (w_log w2)) r' =
     if Nat.eqb r' r then mkBucket false h (b_onEmpty (bucket_of w2 r))
       (b_delay (bucket_of w2 r)) (set_add (length (w_subs w)) (entries_of w2 r))
     else bucket_of w2 r')
    by (intros r'; unfold bucket_of at 1; simpl; rewrite nth_replace_nth by exact Hr; reflexivity).
  assert (Hadd : set_add (length (w_subs w)) (entries_of w2 r) =
                 entries_of w r ++ [Some (length (w_subs w))]).
  { unfold set_add. rewrite He2. rewrite re_set_has_false by apply Hfresh. reflexivity. }
  split; [rewrite Hs2; reflexivity|]. split; [exact Hl2|]. split; [exact Hk2|].
  split; [exact Hold|]. split; [exact Hoth|].
  split; [rewrite Hb, Nat.eqb_refl; reflexivity|].
  split; [unfold entries_of at 1; rewrite Hb, Nat.eqb_refl; exact Hadd|].
  split; [intros r' Hne; rewrite Hb; apply Nat.eqb_neq in Hne; rewrite Hne; apply Hb2, Nat.eqb_neq, Hne|].
  intros d' r' Hl'. simpl in Hl'. rewrite Hb. destruct (Hm2 d' r' Hl') as [H1 H2].
  destruct (Nat.eqb_spec r' r) as [->|]; simpl; auto.
Qed.

(** *** How sets evolve *)

Lemma re_punch_some (a b : list (option nat)) (x : nat) :
  punch a b -> In (Some x) b -> In (Some x) a.
Proof. intros H Hx. apply re_In_members, (re_punch_in a b x H), re_In_members, Hx. Qed.

Lemma re_evolve_refl (w : world) : evolve w w.
Proof. apply re_safe_evolve, re_safe_refl. Qed.

Lemma re_evolve_subs (w w' : world) : evolve w w' -> length (w_subs w) <= length (w_subs w').
Proof. intros [(ss & Hs) _]. rewrite Hs, length_app. lia. Qed.

Lemma re_evolve_sub_of (w w' : world) (s : nat) :
  evolve w w' -> s < length (w_subs w) -> sub_of w' s = sub_of w s.
Proof. intros [(ss & Hs) _] Hlt. unfold sub_of. rewrite Hs, app_nth1 by exact Hlt. reflexivity. Qed.

Lemma re_evolve_trans (w1 w2 w3 : world) : evolve w1 w2 -> evolve w2 w3 -> evolve w1 w3.
Proof.
  intros H12 H23. pose proof (re_evolve_subs w1 w2 H12) as Hlen.
  destruct H12 as ((ss1 & Hs1) & (ev1 & Hl1) & He1), H23 as ((ss2 & Hs2) & (ev2 & Hl2) & He2).
  split; [exists (ss1 ++ ss2); rewrite Hs2, Hs1, app_assoc; reflexivity|].
  split; [exists (ev1 ++ ev2); rewrite Hl2, Hl1, app_assoc; reflexivity|].
  intros r. destruct (He1 r) as (es1 & a1 & E1 & P1 & F1), (He2 r) as (es2 & a2 & E2 & P2 & F2).
  rewrite E1 in P2. apply Forall2_app_inv_l in P2 as (l1 & l2 & Q1 & Q2 & ->).
  exists l1, (l2 ++ a2). split; [rewrite E2, app_assoc; reflexivity|].
  split; [apply (re_punch_trans _ _ _ P1 Q1)|].
  intros x Hx. apply in_app_or in Hx as [Hx|Hx].
  - apply F1, (re_punch_some a1 l2 x Q2 Hx).
  - pose proof (F2 x Hx). lia.
Qed.

Lemma re_evolve_members (w w' : world) (r x : nat) :
  evolve w w' -> In x (members (entries_of w' r)) ->
  In x (members (entries_of w r)) \/ length (w_subs w) <= x.
Proof.
  intros (_ & _ & He) Hx. destruct (He r) as (es1 & a & E & P & F).
  rewrite E, re_members_app in Hx. apply in_app_or in Hx as [Hx|Hx].
  - left. apply (re_punch_in _ _ x P Hx).
  - right. apply F, re_In_members, Hx.
Qed.

Lemma re_evolve_gone (w w' : world) (r c : nat) :
  evolve w w' -> ~ In c (members (entries_of w r)) -> c < length (w_subs w) ->
  ~ In c (members (entries_of w' r)).
Proof.
  intros H Hn Hc Hin. destruct (re_evolve_members w w' r c H Hin) as [Hx|Hx]; [exact (Hn Hx) | lia].
Qed.

Lemma re_sorted_snoc (l : list nat) (n : nat) :
  StronglySorted lt l -> (forall x, In x l -> x < n) -> StronglySorted lt (l ++ [n]).
Proof.
  induction l as [|a l IH]; simpl; intros Hs Hb.
  - repeat constructor.
  - apply StronglySorted_inv in Hs as [Hs Hall]. constructor; [apply IH; auto|].
    apply Forall_app. split; [exact Hall|]. constructor; [apply Hb; auto | constructor].
Qed.

(** *** Steps of pool code run by a callback *)

Lemma re_subscribe_step (ex : option (nat * nat)) (w : world) (d : Z) (sub : subscription) :
  inv ex w -> map_ok w ->
  inv ex (snd (subscribe d sub w)) /\ map_ok (snd (subscribe d sub w)) /\
  evolve w (snd (subscribe d sub w)) /\
  calls (w_log (snd (subscribe d sub w))) = calls (w_log w).
Proof.
  intros Hi Hm.
  assert (Hfresh : forall r, ~ In (length (w_subs w)) (members (entries_of w r)))
    by (intros r Hin; pose proof (i_bound _ _ Hi r _ Hin); lia).
  destruct (re_subscribe w d sub Hm Hfresh)
    as (r & w' & Heq & Hs & Hl & _ & _ & _ & Hd & He & Hb & Hm').
  rewrite Heq; simpl. set (n := length (w_subs w)) in *.
  assert (Hent : forall r', entries_of w' r' =
            if Nat.eqb r' r then entries_of w r ++ [Some n] else entries_of w r').
  { intros r'. destruct (Nat.eqb_spec r' r) as [->|Hne]; [exact He|].
    unfold entries_of. rewrite (Hb r' Hne). reflexivity. }
  assert (Hmem : forall r' x, In x (members (entries_of w' r')) ->
            In x (members (entries_of w r')) \/ (x = n /\ r' = r)).
  { intros r' x Hx. rewrite Hent in Hx. destruct (Nat.eqb_spec r' r) as [->|]; [|auto].
    rewrite re_members_app in Hx. apply in_app_or in Hx as [Hx|[Hx|[]]]; auto. }
  assert (Hsub : forall s, s < n -> sub_of w' s = sub_of w s)
    by (intros s Hsn; unfold sub_of; rewrite Hs, app_nth1 by exact Hsn; reflexivity).
  assert (Hlen : length (w_subs w') = S n) by (rewrite Hs, length_app; simpl; unfold n; lia).
  assert (Hcalls : calls (w_log w') = calls (w_log w)) by (rewrite Hl; reflexivity).
  split; [|split; [exact Hm'|split; [|exact Hcalls]]].
  - destruct Hi as [Hso Hbo Hu Hdi Hca Hon]. split.
    + intros r'. rewrite Hent. destruct (Nat.eqb_spec r' r) as [->|]; [|apply Hso].
      rewrite re_members_app. apply re_sorted_snoc; [apply Hso | intros x Hx; apply (Hbo r), Hx].
    + intros r' x Hx. rewrite Hlen. destruct (Hmem r' x Hx) as [H|[-> _]]; [|lia].
      pose proof (Hbo r' x H). lia.
    + intros r1 r2 x H1 H2.
      destruct (Hmem r1 x H1) as [G1|[E1 ->]], (Hmem r2 x H2) as [G2|[E2 ->]]; try reflexivity.
      * apply (Hu r1 r2 x G1 G2).
      * subst x. destruct (Hfresh r1 G1).
      * subst x. destruct (Hfresh r2 G2).
    + intros r' Hr'. destruct (Nat.eqb_spec r' r) as [->|Hne]; [congruence|].
      rewrite Hent. apply Nat.eqb_neq in Hne. rewrite Hne. apply Hdi.
      unfold bucket_of at 1 in Hr'. rewrite <- (Hb r') by (apply Nat.eqb_neq, Hne). exact Hr'.
    + intros s Hc. rewrite Hcalls in Hc. rewrite Hlen. pose proof (Hca s Hc). lia.
    + intros s Ho Hc. rewrite Hcalls in Hc. pose proof (Hca s Hc) as Hsn.
      rewrite Hsub in Ho by exact Hsn. rewrite Hcalls.
      destruct (Hon s Ho Hc) as [Hn Hr]. split; [exact Hn|].
      intros r' Hx. destruct (Hmem r' s Hx) as [H|[E _]]; [apply Hr, H | unfold n in E; lia].
  - split; [exists [sub]; exact Hs|]. split; [exists []; rewrite Hl, app_nil_r; reflexivity|].
    intros r'. rewrite Hent. destruct (Nat.eqb_spec r' r) as [->|].
    + exists (entries_of w r), [Some n]. split; [reflexivity|].
      split; [apply re_punch_refl | intros x [E|[]]; inversion E; unfold n; lia].
    + exists (entries_of w r'), []. rewrite app_nil_r. split; [reflexivity|].
      split; [apply re_punch_refl | intros x []].
Qed.

Lemma re_safe_step (ex : option (nat * nat)) (w w' : world) :
  safe w w' -> inv ex w -> inv ex w' /\ evolve w w' /\ calls (w_log w') = calls (w_log w).
Proof.
  intros H Hi. split; [apply (re_safe_inv ex w w' H Hi)|].
  split; [apply re_safe_evolve, H | apply re_safe_calls, H].
Qed.

Lemma re_snd_bind_ret {A B} (m : M A) (b : B) (w : world) :
  snd (bind m (fun _ => ret b) w) = snd (m w).
Proof. unfold bind. destruct (m w) as [[a|e] w1]; reflexivity. Qed.

Lemma re_act (ex : option (nat * nat)) (a : action) (w : world) :
  inv ex w -> map_ok w ->
  inv ex (snd (act a w)) /\ map_ok (snd (act a w)) /\ evolve w (snd (act a w)) /\
  calls (w_log (snd (act a w))) = calls (w_log w).
Proof.
  intros Hi Hm. destruct a as [d cb|d cb|u|]; simpl.
  - rewrite re_snd_bind_ret. apply re_subscribe_step; assumption.
  - rewrite re_snd_bind_ret. apply re_subscribe_step; assumption.
  - destruct (re_safe_step ex w _ (re_unsubscribe_safe u w) Hi) as (H1 & H2 & H3).
    split; [exact H1 | split; [apply re_unsubscribe_map_ok, Hm | auto]].
  - destruct (re_safe_step ex w _ (re_clear_safe w) Hi) as (H1 & H2 & H3).
    split; [exact H1 | split; [apply re_clear_map_ok, Hm | auto]].
Qed.

Lemma re_perform (ex : option (nat * nat)) (l : list action) (w : world) :
  inv ex w -> map_ok w ->
  inv ex (snd (perform l w)) /\ map_ok (snd (perform l w)) /\ evolve w (snd (perform l w)) /\
  calls (w_log (snd (perform l w))) = calls (w_log w).
Proof.
  revert w; induction l as [|a l IH]; intros w Hi Hm; simpl.
  - split; [exact Hi | split; [exact Hm | split; [apply re_evolve_refl | reflexivity]]].
  - unfold bind. destruct (re_act ex a w Hi Hm) as (Hi1 & Hm1 & He1 & Hc1).
    destruct (act a w) as [[[]|e] w1]; simpl in *.
    + destruct (IH w1 Hi1 Hm1) as (Hi2 & Hm2 & He2 & Hc2).
      split; [exact Hi2 | split; [exact Hm2 | split; [apply (re_evolve_trans _ _ _ He1 He2) | congruence]]].
    + auto.
Qed.

(** *** Calling a callback *)

Lemma re_inv_call (w : world) (r s : nat) :
  inv None w -> In s (members (entries_of w r)) ->
  inv (if s_once (sub_of w s) then Some (s, r) else None)
      (with_log w (w_log w ++ [EvCall s])).
Proof.
  intros Hi Hs. destruct Hi as [Hso Hb Hu Hdi Hca Hon].
  assert (Hc : calls (w_log (with_log w (w_log w ++ [EvCall s]))) = calls (w_log w) ++ [s])
    by (simpl; rewrite calls_app; reflexivity).
  assert (Hsn : s < length (w_subs w)) by (apply (Hb r), Hs).
  split; try assumption.
  - intros s' Hs'. rewrite Hc in Hs'. apply in_app_or in Hs' as [H|[<-|[]]]; [apply Hca, H | exact Hsn].
  - intros s' Ho Hs'. change (sub_of (with_log w (w_log w ++ [EvCall s])) s') with (sub_of w s') in Ho.
    rewrite Hc in *. rewrite count_occ_app. simpl.
    destruct (Nat.eq_dec s s') as [<-|Hne].
    + rewrite Ho. assert (Hn : ~ In s (calls (w_log w))).
      { intros Hin. destruct (Hon s Ho Hin) as [_ Hr]. discriminate (Hr r Hs). }
      rewrite (proj1 (count_occ_not_In Nat.eq_dec _ s) Hn). split; [reflexivity|].
      intros r' Hr'. rewrite (Hu r' r s Hr' Hs). reflexivity.
    + apply in_app_or in Hs' as [Hs'|[E|[]]]; [|congruence].
      destruct (Hon s' Ho Hs') as [Hn Hr]. rewrite Hn. split; [lia|].
      intros r' Hr'. discriminate (Hr r' Hr').
Qed.

Lemma re_inv_release (w : world) (r s : nat) :
  inv (Some (s, r)) w -> ~ In s (members (entries_of w r)) -> inv None w.
Proof.
  intros Hi Hs. destruct Hi as [Hso Hb Hu Hdi Hca Hon]. split; try assumption.
  intros s' Ho Hc. destruct (Hon s' Ho Hc) as [Hn Hr]. split; [exact Hn|].
  intros r' Hr'. specialize (Hr r' Hr'). inversion Hr; subst. contradiction.
Qed.

Lemma re_inv_none (w : world) (s r : nat) :
  s_once (sub_of w s) = false -> inv (if s_once (sub_of w s) then Some (s, r) else None) w ->
  inv None w.
Proof. intros Ho. rewrite Ho. auto. Qed.

Lemma re_gone_safe (w w' : world) (r s : nat) :
  safe w w' -> ~ In s (members (entries_of w r)) -> ~ In s (members (entries_of w' r)).
Proof. intros (_ & _ & Hp & _) Hn Hin. apply Hn, (re_punch_in _ _ s (Hp r) Hin). Qed.

Lemma re_bind_after {A B} (Q : world -> Prop) (m : M A) (k : A -> M B) (w : world) :
  (forall w1 w2, Q w1 -> safe w1 w2 -> Q w2) -> Q (snd (m w)) ->
  (forall a, rel_op safe (k a)) -> Q (snd (bind m k w)).
Proof.
  intros HQ Hm Hk. unfold bind. destruct (m w) as [[a|e] w1]; simpl in *; [|exact Hm].
  apply (HQ w1); [exact Hm | apply Hk].
Qed.

(** [remove(s)] on a live bucket takes [s] out of its set. *)
Lemma re_remove_gone (w : world) (r s : nat) :
  b_disposed (bucket_of w r) = false -> NoDup (members (entries_of w r)) ->
  ~ In s (members (entries_of (snd (remove r s w)) r)).
Proof.
  intros H Hnd. unfold remove.
  change (bind (get_bucket r) ?k w) with (k (bucket_of w r) w). cbv beta. rewrite H.
  apply re_bind_after.
  - intros w1 w2 Hn Hs. apply (re_gone_safe w1 w2 r s Hs Hn).
  - unfold modify_bucket; simpl. pose proof (re_live_in_heap w r H) as Hr.
    unfold entries_of at 1. rewrite re_bucket_of_replace, Nat.eqb_refl.
    apply Nat.ltb_lt in Hr. rewrite Hr. simpl. apply re_delete_gone, Hnd.
  - intros []. re_safe; try apply re_stop_safe; try apply re_onEmptyBucket_safe.
Qed.

Lemma re_remove_ok (w : world) (r s : nat) :
  b_disposed (bucket_of w r) = false -> fst (remove r s w) = Ok tt.
Proof.
  intros H. unfold remove.
  change (bind (get_bucket r) ?k w) with (k (bucket_of w r) w). cbv beta. rewrite H.
  set (w1 := snd (modify_bucket r (fun b => set_entries (set_delete s (b_entries b)) b) w)).
  change (bind (modify_bucket r ?f) ?k w) with (k tt w1). cbv beta.
  assert (H1 : b_disposed (bucket_of w1 r) = false).
  { unfold w1, modify_bucket; simpl. rewrite re_bucket_of_replace, Nat.eqb_refl.
    destruct (Nat.ltb _ _); exact H. }
  change (bind (get_bucket r) ?k w1) with (k (bucket_of w1 r) w1). cbv beta.
  destruct (_ =? 0); [|reflexivity].
  set (w2 := snd (stop r w1)).
  assert (E2 : stop r w1 = (Ok tt, w2)) by (unfold w2; rewrite re_stop_eq by exact H1; reflexivity).
  unfold bind at 1. rewrite E2. cbv beta iota.
  change (bind (get_bucket r) ?k w2) with (k (bucket_of w2 r) w2). cbv beta.
  destruct (b_onEmpty _); [|reflexivity].
  set (w3 := snd (log (EvOnEmpty r) w2)).
  change (bind (log (EvOnEmpty r)) ?k w2) with (k tt w3). cbv beta.
  unfold onEmptyBucket, bind at 1. pose proof (re_dispose_ok w3 r) as Hok.
  destruct (dispose r w3) as [[[]|e] w4]; simpl in *; [reflexivity | discriminate].
Qed.

Lemma re_sorted_NoDup (l : list nat) : StronglySorted lt l -> NoDup l.
Proof.
  induction 1 as [|a l Hs IH Hall]; constructor; [|exact IH].
  intros Hin. rewrite Forall_forall in Hall. specialize (Hall a Hin). lia.
Qed.

Section Notify.

Variable behaviour : nat -> world -> list action.

Lemma re_invoke_snd (s : nat) (cb : callback) (w : world) :
  snd (invoke behaviour s cb w) =
  snd (perform (behaviour (cb_name cb) (with_log w (w_log w ++ [EvCall s])))
               (with_log w (w_log w ++ [EvCall s]))).
Proof.
  unfold invoke, bind, log, get_world. simpl.
  destruct (perform _ _) as [[[]|e] w2]; [destruct (cb_throws cb)|]; reflexivity.
Qed.

(** The [catch] of [#notifySubscription] reports any error and returns. *)
Lemma re_caught (s : nat) (cb : callback) (w : world) :
  exists w3,
    match invoke behaviour s cb w with
    | (Ok a, w1) => (Ok a, w1)
    | (Throw e, w1) => log (EvConsoleError e) w1
    end = (Ok tt, w3) /\ safe (snd (invoke behaviour s cb w)) w3.
Proof.
  destruct (invoke behaviour s cb w) as [[[]|e] w1]; simpl.
  - exists w1. split; [reflexivity | apply re_safe_refl].
  - eexists. split; [reflexivity|]. apply (re_safe_log (EvConsoleError e) eq_refl w1).
Qed.

Lemma re_notify (r s i : nat) (w : world) :
  inv None w -> map_ok w -> nth_error (entries_of w r) i = Some (Some s) ->
  inv None (snd (notifySubscription behaviour r s w)) /\
  map_ok (snd (notifySubscription behaviour r s w)) /\
  evolve w (snd (notifySubscription behaviour r s w)) /\
  calls (w_log (snd (notifySubscription behaviour r s w))) = calls (w_log w) ++ [s] /\
  (forall e, fst (notifySubscription behaviour r s w) = Throw e ->
     b_disposed (bucket_of (snd (notifySubscription behaviour r s w)) r) = true).
Proof.
  intros Hi Hm Hn. pose proof (re_nth_members _ _ _ Hn) as Hs.
  set (ex := if s_once (sub_of w s) then Some (s, r) else None).
  set (w1 := with_log w (w_log w ++ [EvCall s])).
  assert (Hi1 : inv ex w1) by apply (re_inv_call w r s Hi Hs).
  assert (Hm1 : map_ok w1) by exact Hm.
  assert (He1 : evolve w w1).
  { split; [exists []; rewrite app_nil_r; reflexivity|].
    split; [exists [EvCall s]; reflexivity|].
    intros r'. exists (entries_of w r'), []. rewrite app_nil_r.
    split; [reflexivity | split; [apply re_punch_refl | intros x []]]. }
  assert (Hc1 : calls (w_log w1) = calls (w_log w) ++ [s]) by (simpl; rewrite calls_app; reflexivity).
  set (cb := s_callback (sub_of w s)).
  destruct (re_perform ex (behaviour (cb_name cb) w1) w1 Hi1 Hm1) as (Hi2 & Hm2 & He2 & Hc2).
  assert (Hinv : snd (invoke behaviour s cb w) = snd (perform (behaviour (cb_name cb) w1) w1))
    by apply re_invoke_snd.
  rewrite <- Hinv in Hi2, Hm2, He2, Hc2.
  destruct (re_caught s cb w) as (w3 & Hcatch & Hs3).
  destruct (re_safe_step ex _ w3 Hs3 Hi2) as (Hi3 & He3 & Hc3).
  assert (Hm3 : map_ok w3).
  { destruct Hs3 as (_ & _ & _ & _). revert Hcatch. unfold cb.
    destruct (invoke behaviour s _ w) as [[[]|e] w2]; simpl in *; intros E; inversion E; subst;
      [exact Hm2 | exact Hm2]. }
  assert (He13 : evolve w w3)
    by (apply (re_evolve_trans _ w1); [exact He1 | apply (re_evolve_trans _ _ _ He2 He3)]).
  assert (Hc13 : calls (w_log w3) = calls (w_log w) ++ [s]) by congruence.
  unfold notifySubscription.
  change (bind (get_sub s) ?k w) with (k (sub_of w s) w). cbv beta.
  unfold try_catch_finally. fold cb. rewrite Hcatch.
  destruct (s_once (sub_of w s)) eqn:Ho.
  - (* a [once] subscription: [finally] removes it *)
    assert (Hs3r : safe w3 (snd (remove r s w3))) by apply re_remove_safe.
    destruct (re_safe_step ex _ _ Hs3r Hi3) as (Hi4 & He4 & Hc4).
    assert (Hm4 : map_ok (snd (remove r s w3))) by (apply re_remove_map_ok, Hm3).
    assert (Hgone : ~ In s (members (entries_of (snd (remove r s w3)) r))).
    { destruct (b_disposed (bucket_of w3 r)) eqn:Hd.
      - apply (re_gone_safe w3 _ r s Hs3r). rewrite (i_disposed _ _ Hi3 r Hd). intros [].
      - apply re_remove_gone; [exact Hd|]. apply re_sorted_NoDup, (i_sorted _ _ Hi3). }
    assert (Hthrow : forall e, fst (remove r s w3) = Throw e ->
                       b_disposed (bucket_of (snd (remove r s w3)) r) = true).
    { intros e. destruct (b_disposed (bucket_of w3 r)) eqn:Hd.
      - intros Ht. unfold remove, bind, get_bucket. rewrite Hd. exact Hd.
      - rewrite (re_remove_ok w3 r s Hd). discriminate. }
    destruct (remove r s w3) as [res4 w4] eqn:Hrm. simpl in *.
    assert (Hres : forall e, fst (match res4 with Ok _ => (Ok tt, w4) | Throw e' => (Throw e', w4) end) = Throw e ->
                     b_disposed (bucket_of w4 r) = true).
    { intros e. destruct res4 as [[]|e']; simpl; [discriminate|]. intros E. apply (Hthrow e'). reflexivity. }
    assert (Hsnd : snd (match res4 with Ok _ => (Ok tt, w4) | Throw e' => (Throw e', w4) end) = w4)
      by (destruct res4; reflexivity).
    rewrite Hsnd.
    split; [apply (re_inv_release w4 r s); [exact Hi4 | exact Hgone]|].
    split; [exact Hm4|]. split; [apply (re_evolve_trans _ _ _ He13 He4)|].
    split; [congruence | exact Hres].
  - simpl.
    split; [exact Hi3|]. split; [exact Hm3|]. split; [exact He13|].
    split; [exact Hc13 | intros e; discriminate].
Qed.

End Notify.

(** *** The walk of [forEach] *)

Section Walk.

Variable behaviour : nat -> world -> list action.

(** A walk from index [i] calls, in increasing order, entries found at
    index [i] or later, or subscriptions allocated during the walk; and
    each member at index [i] or later is called or has left the set. *)
Lemma re_walk (fuel : nat) : forall (r i : nat) (w : world) res w',
  inv None w -> map_ok w ->
  forEach_from behaviour fuel r i w = Some (res, w') ->
  inv None w' /\ map_ok w' /\ evolve w w' /\
  exists l, calls (w_log w') = calls (w_log w) ++ l /\ StronglySorted lt l /\
    (forall c, In c l ->
       (exists j, i <= j /\ nth_error (entries_of w r) j = Some (Some c)) \/
       length (w_subs w) <= c) /\
    (forall j c, i <= j -> nth_error (entries_of w r) j = Some (Some c) ->
       In c l \/ ~ In c (members (entries_of w' r))).
Proof.
  induction fuel as [|fuel IH]; intros r i w res w' Hi Hm Hw; [discriminate|].
  simpl in Hw. destruct (nth_error (entries_of w r) i) as [[s|]|] eqn:Hn.
  - destruct (re_notify behaviour r s i w Hi Hm Hn) as (Hi1 & Hm1 & He1 & Hc1 & Ht1).
    assert (Hsn : s < length (w_subs w)) by (apply (i_bound _ _ Hi r), (re_nth_members _ _ _ Hn)).
    (* where an entry of the set after the call comes from *)
    assert (Hfrom : forall w2 j c, evolve w w2 -> nth_error (entries_of w2 r) j = Some (Some c) ->
              nth_error (entries_of w r) j = Some (Some c) \/ length (w_subs w) <= c).
    { intros w2 j c (_ & _ & He) Hj. destruct (He r) as (es1 & a & E & P & F).
      rewrite E in Hj. apply re_nth_error_app_cases in Hj as [[_ Hj]|[_ Hj]].
      - left. apply (re_punch_nth _ _ _ _ P Hj).
      - right. apply F, Hj. }
    destruct (notifySubscription behaviour r s w) as [[[]|e] w1] eqn:Hnot; simpl in *.
    + destruct (IH r (S i) w1 res w' Hi1 Hm1 Hw) as (Hi2 & Hm2 & He2 & l & Hc2 & Hs2 & Hf2 & Hg2).
      pose proof (re_evolve_subs w w1 He1) as Hlen1.
      split; [exact Hi2|]. split; [exact Hm2|]. split; [apply (re_evolve_trans _ _ _ He1 He2)|].
      (* each later call is of a larger subscription *)
      assert (Hlater : forall c, In c l ->
                (exists j, S i <= j /\ nth_error (entries_of w r) j = Some (Some c)) \/
                length (w_subs w) <= c).
      { intros c Hc. destruct (Hf2 c Hc) as [(j & Hj & Hjc)|Hge]; [|right; lia].
        destruct (Hfrom w1 j c He1 Hjc) as [H|H]; [left; exists j; auto | right; exact H]. }
      exists (s :: l). split; [rewrite Hc2, Hc1, <- app_assoc; reflexivity|].
      split.
      * constructor; [exact Hs2|]. apply Forall_forall. intros c Hc.
        destruct (Hlater c Hc) as [(j & Hj & Hjc)|Hge]; [|lia].
        apply (re_sorted_nth (entries_of w r) i j s c (i_sorted _ _ Hi r) Hn Hjc). lia.
      * split.
        -- intros c [<-|Hc]; [left; exists i; auto|].
           destruct (Hlater c Hc) as [(j & Hj & Hjc)|Hge]; [left; exists j; split; [lia | exact Hjc] | right; exact Hge].
        -- intros j c Hj Hjc. destruct (Nat.eq_dec j i) as [->|Hne].
           ++ rewrite Hn in Hjc. inversion Hjc; subst. left; left; reflexivity.
           ++ destruct He1 as (Hs1 & Hl1 & He1').
              destruct (He1' r) as (es1 & a & E & P & F).
              assert (Hjl : j < length es1)
                by (rewrite (re_punch_length _ _ P); apply nth_error_Some; congruence).
              destruct (re_punch_nth_hole _ _ _ _ P Hjc) as [Hj1|Hj1].
              ** assert (Hj1' : nth_error (entries_of w1 r) j = Some (Some c))
                   by (rewrite E, nth_error_app1 by exact Hjl; exact Hj1).
                 destruct (Hg2 j c ltac:(lia) Hj1') as [H|H]; [left; right; exact H | right; exact H].
              ** right. assert (Hcs : c < length (w_subs w))
                   by (apply (i_bound _ _ Hi r), (re_nth_members _ _ _ Hjc)).
                 apply (re_evolve_gone w1 w'); [exact He2| |lia].
                 rewrite E, re_members_app. intros Hin. apply in_app_or in Hin as [Hin|Hin].
                 --- apply (re_punch_hole_gone _ _ j c P (i_sorted _ _ Hi r) Hjc Hj1 Hin).
                 --- pose proof (F c (proj1 (re_In_members c a) Hin)). lia.
    + inversion Hw; subst res w'. clear Hw.
      split; [exact Hi1|]. split; [exact Hm1|]. split; [exact He1|].
      exists [s]. split; [exact Hc1|]. split; [repeat constructor|].
      split; [intros c [<-|[]]; left; exists i; auto|].
      intros j c _ _. right. rewrite (i_disposed _ _ Hi1 r (Ht1 e eq_refl)). intros [].
  - destruct (IH r (S i) w res w' Hi Hm Hw) as (Hi2 & Hm2 & He2 & l & Hc2 & Hs2 & Hf2 & Hg2).
    split; [exact Hi2|]. split; [exact Hm2|]. split; [exact He2|].
    exists l. split; [exact Hc2|]. split; [exact Hs2|]. split.
    + intros c Hc. destruct (Hf2 c Hc) as [(j & Hj & Hjc)|H]; [left; exists j; split; [lia|exact Hjc] | right; exact H].
    + intros j c Hj Hjc. destruct (Nat.eq_dec j i) as [->|Hne]; [congruence|].
      apply (Hg2 j c); [lia | exact Hjc].
  - inversion Hw; subst res w'. split; [exact Hi|]. split; [exact Hm|].
    split; [apply re_evolve_refl|]. exists []. rewrite app_nil_r.
    split; [reflexivity|]. split; [constructor|]. split; [intros c []|].
    intros j c Hj Hjc. exfalso. apply nth_error_None in Hn.
    assert (nth_error (entries_of w r) j = None) by (apply nth_error_None; lia). congruence.
Qed.

End Walk.

(** *** Reachable pools *)

Lemma re_init_inv (start : Z) : inv None (init_world start) /\ map_ok (init_world start).
Proof.
  assert (He : forall r, entries_of (init_world start) r = [])
    by (intros [|r]; reflexivity).
  split; [split|].
  - intros r. rewrite He. constructor.
  - intros r x. rewrite He. intros [].
  - intros r1 r2 x. rewrite He. intros [].
  - intros r _. rewrite He. reflexivity.
  - intros s [].
  - intros s _ [].
  - intros d r H. discriminate.
Qed.

Lemma re_reachable_inv (behaviour : nat -> world -> list action) (w : world) :
  reachable behaviour w -> inv None w /\ map_ok w.
Proof.
  induction 1 as [start|w w' Hr [Hi Hm] Hs]; [apply re_init_inv|].
  destruct Hs as [d cb w|d cb w|u w|w|t fuel w res w' Ht Hf].
  - destruct (re_subscribe_step None w d (mkSub cb false) Hi Hm) as (H1 & H2 & _).
    split; [exact H1 | exact H2].
  - destruct (re_subscribe_step None w d (mkSub cb true) Hi Hm) as (H1 & H2 & _).
    split; [exact H1 | exact H2].
  - split; [apply (re_safe_inv None w _ (re_unsubscribe_safe u w) Hi) | apply re_unsubscribe_map_ok, Hm].
  - split; [apply (re_safe_inv None w _ (re_clear_safe w) Hi) | apply re_clear_map_ok, Hm].
  - destruct (re_walk behaviour fuel (t_handler t) 0 w res w' Hi Hm Hf) as (H1 & H2 & _). auto.
Qed.

Lemma re_members_subs_at (w : world) (s : nat) :
  (forall r, ~ In s (members (entries_of w r))) -> forall d, ~ In s (subs_at w d).
Proof.
  intros H d. unfold subs_at. destruct (map_lookup d (w_buckets w)) as [r|]; [apply H | intros []].
Qed.

Lemma re_reach_adding : reachable adding ex_adding.
Proof.
  apply (reach_step adding _ _ (reach_step adding _ _ (reach_init adding 1)
           (step_once adding 1000 cbA _)) (step_run adding 1000 cbB _)).
Qed.

Lemma re_reach_self : reachable self_unsubscribing ex_self.
Proof. apply (reach_step self_unsubscribing _ _ (reach_init self_unsubscribing 1) (step_once _ 1000 cbT _)). Qed.

(** *** The claims about a tick *)

(** C3: in every reachable pool, whatever pool calls the callbacks make,
    [#subscribe] appends the new subscription, whose reference is larger
    than that of every member, at the end of the set of its period; and a
    tick of any bucket calls subscriptions in increasing order of
    reference, that is of registration: the members of the set at the
    start of the tick, each unless it left the set before its turn, then
    subscriptions added during the tick.  So for two called subscriptions
    [s1 < s2] (s1 registered first) the call of [s1] comes before that of
    [s2]. *)
Theorem tick_order (behaviour : nat -> world -> list action) (w : world) :
  reachable behaviour w ->
  (forall d sub, exists w',
     subscribe d sub w = (Ok (mkUnsub d (length (w_subs w))), w') /\
     subs_at w' d = subs_at w d ++ [length (w_subs w)] /\
     Forall (fun s => s < length (w_subs w)) (subs_at w d)) /\
  (forall fuel r res w', handleIntervalTick behaviour fuel r w = Some (res, w') ->
     exists l,
       calls (w_log w') = calls (w_log w) ++ l /\
       StronglySorted lt l /\
       (forall s, In s l -> In s (members (entries_of w r)) \/ length (w_subs w) <= s) /\
       (forall s, In s (members (entries_of w r)) -> In s l \/ ~ In s (members (entries_of w' r))) /\
       forall s1 s2, In s1 l -> In s2 l -> s1 < s2 ->
         exists l1 l2 l3, calls (w_log w') = calls (w_log w) ++ l1 ++ s1 :: l2 ++ s2 :: l3).
Proof.
  intros Hw. destruct (re_reachable_inv behaviour w Hw) as [Hi Hm]. split.
  - intros d sub.
    assert (Hfresh : forall r, ~ In (length (w_subs w)) (members (entries_of w r)))
      by (intros r Hin; pose proof (i_bound _ _ Hi r _ Hin); lia).
    destruct (re_subscribe w d sub Hm Hfresh)
      as (r & w' & Heq & _ & _ & Hk & Hold & _ & _ & He & _ & _).
    exists w'. split; [exact Heq|]. split.
    + unfold subs_at. rewrite Hk, He, re_members_app.
      destruct Hold as [Hl|[Hl He0]]; rewrite Hl; [reflexivity | rewrite He0; reflexivity].
    + apply Forall_forall. intros s Hs. unfold subs_at in Hs.
      destruct (map_lookup d (w_buckets w)) as [r0|]; [|destruct Hs].
      apply (i_bound _ _ Hi r0), Hs.
  - intros fuel r res w' Ht.
    destruct (re_walk behaviour fuel r 0 w res w' Hi Hm Ht) as (_ & _ & _ & l & Hc & Hs & Hf & Hg).
    exists l. split; [exact Hc|]. split; [exact Hs|]. split.
    + intros s Hin. destruct (Hf s Hin) as [(j & _ & Hj)|H]; [left; apply (re_nth_members _ _ _ Hj) | right; exact H].
    + split.
      * intros s Hin. apply re_members_nth in Hin as (j & Hj). apply (Hg j s); [lia | exact Hj].
      * intros s1 s2 H1 H2 Hlt.
        destruct (sorted_split _ _ _ Hs H1 H2 Hlt) as (l1 & l2 & l3 & Hl).
        exists l1, l2, l3. rewrite Hc, Hl. reflexivity.
Qed.

(** C4 does not hold: [const u = pool.once(1000, () => { u(); throw error })].
    The pool is reachable and its one timer runs the tick of bucket 0.  In
    the tick the callback removes the last member, so the bucket is
    disposed and the period leaves the map; its error is reported by
    [console.error]; then the [finally] calls [remove] on the disposed
    bucket, which throws out of [#handleIntervalTick] to the facility. *)
Theorem tick_error_escapes :
  reachable self_unsubscribing ex_self /\
  (exists t, In t (f_live (w_timers ex_self)) /\ t_handler t = 0) /\
  subs_at ex_self 1000 = [0] /\
  exists w',
    handleIntervalTick self_unsubscribing 10 0 ex_self = Some (Throw ExRemoveDisposed, w') /\
    w_log w' = [EvCall 0; EvOnEmpty 0; EvConsoleError (ExCallback 7)] /\
    w_buckets w' = [].
Proof.
  split; [apply re_reach_self|]. split.
  - eexists. split; [vm_compute; left; reflexivity | reflexivity].
  - split; [vm_compute; reflexivity|]. eexists. split; [vm_compute; reflexivity|].
    split; vm_compute; reflexivity.
Qed.

(** C5: in every reachable pool, whatever pool calls the callbacks make,
    the callback of a [once] subscription that has been called was called
    exactly once and the subscription is in no period's set; and after a
    tick of a bucket with [once] member [s], [s] has been called at most
    once in the whole history and is in no period's set, whether its
    callback returned or threw.  Every later state is reachable, so both
    stay true in it. *)
Theorem once_called_once (behaviour : nat -> world -> list action) (w : world) (s : nat) :
  reachable behaviour w -> s_once (sub_of w s) = true ->
  (In s (calls (w_log w)) ->
     count_occ Nat.eq_dec (calls (w_log w)) s = 1 /\ forall d, ~ In s (subs_at w d)) /\
  (forall fuel r res w', In s (members (entries_of w r)) ->
     handleIntervalTick behaviour fuel r w = Some (res, w') ->
     count_occ Nat.eq_dec (calls (w_log w')) s <= 1 /\ forall d, ~ In s (subs_at w' d)).
Proof.
  intros Hw Ho. destruct (re_reachable_inv behaviour w Hw) as [Hi Hm]. split.
  - intros Hc. destruct (i_once _ _ Hi s Ho Hc) as [Hn Hr]. split; [exact Hn|].
    apply re_members_subs_at. intros r Hin. discriminate (Hr r Hin).
  - intros fuel r res w' Hin Ht.
    destruct (re_walk behaviour fuel r 0 w res w' Hi Hm Ht) as (Hi' & _ & He & l & Hc & Hs & Hf & Hg).
    assert (Hsn : s < length (w_subs w)) by apply (i_bound _ _ Hi r _ Hin).
    assert (Ho' : s_once (sub_of w' s) = true) by (rewrite (re_evolve_sub_of w w' s He Hsn); exact Ho).
    destruct (in_dec Nat.eq_dec s (calls (w_log w'))) as [Hc'|Hc'].
    + destruct (i_once _ _ Hi' s Ho' Hc') as [Hn Hr]. split; [lia|].
      apply re_members_subs_at. intros r' Hin'. discriminate (Hr r' Hin').
    + rewrite (proj1 (count_occ_not_In Nat.eq_dec _ s) Hc'). split; [lia|].
      apply re_members_subs_at. intros r' Hin'.
      destruct (re_evolve_members w w' r' s He Hin') as [H|H]; [|lia].
      pose proof (i_unique _ _ Hi r' r s H Hin) as ->.
      apply re_members_nth in Hin as (j & Hj).
      destruct (Hg j s (Nat.le_0_l j) Hj) as [Hl|Hl]; [|exact (Hl Hin')].
      apply Hc'. rewrite Hc. apply in_or_app. right. exact Hl.
Qed.

(** A tick of [pool.once(1000, a); pool.run(1000, b)] where [a] calls
    [pool.run(1000, b)]: the member added by [a] is called in the same
    tick, after the others. *)
Lemma tick_order_witness :
  reachable adding ex_adding /\
  exists res w' l,
    handleIntervalTick adding 10 0 ex_adding = Some (res, w') /\
    calls (w_log w') = calls (w_log ex_adding) ++ l /\ l = [0; 1; 2] /\ StronglySorted lt l.
Proof.
  split; [apply re_reach_adding|].
  destruct (handleIntervalTick adding 10 0 ex_adding) as [[res w']|] eqn:E;
    [|vm_compute in E; discriminate].
  destruct (proj2 (tick_order adding ex_adding re_reach_adding) 10 0 res w' E)
    as (l & Hc & Hs & _).
  exists res, w', l. split; [reflexivity|]. split; [exact Hc|]. split; [|exact Hs].
  vm_compute in E. inversion E; subst. vm_compute in Hc. inversion Hc. reflexivity.
Defined.

Lemma once_called_once_witness :
  reachable adding ex_adding /\ s_once (sub_of ex_adding 0) = true /\
  exists res w',
    handleIntervalTick adding 10 0 ex_adding = Some (res, w') /\
    count_occ Nat.eq_dec (calls (w_log w')) 0 <= 1 /\ forall d, ~ In 0 (subs_at w' d).
Proof.
  split; [apply re_reach_adding|]. split; [vm_compute; reflexivity|].
  destruct (handleIntervalTick adding 10 0 ex_adding) as [[res w']|] eqn:E;
    [|vm_compute in E; discriminate].
  exists res, w'. split; [reflexivity|].
  apply (proj2 (once_called_once adding ex_adding 0 re_reach_adding ltac:(vm_compute; reflexivity))
           10 0 res w' ltac:(vm_compute; left; reflexivity) E).
Defined.
